(** * nvrsux (Nv Shortener URL): the request handlers and their storage contract

    A shallow embedding of [index.js] and [middleware/auth.js].

    - JavaScript strings are modelled as [string]: sequences of characters
      with code below 256.  Query and body parameters are [option string]
      ([None] is [undefined]): the requests of the development carry each
      parameter once, as a string, or not at all.
    - The numbers of the program are integers (visit counts, page numbers,
      limits); they are modelled as [Z], and an operation rounds its exact
      result to the nearest double ([JS.to_double]).  Integers of absolute
      value at most 2^53 are doubles, so arithmetic is exact below that
      bound and not above it.
    - The collection is a [list Url] in insertion order; the position of a
      document stands for its [_id].  The unique index on [shortSlug] is the
      predicate [unique_slugs], preserved by every handler.  The value of a
      filter on [shortSlug] goes through the setter of the path, as a value
      stored does: a query by [shortSlug] selects the documents whose
      stored value equals the string given, trimmed.
    - A handler is a computation in the state monad [M] over [world]: the
      collection, the log of storage operations it issued, and the number of
      random draws consumed.
    - The rate limiters ([apiLimiter], [createUrlLimiter]) are external
      collaborators which either answer 429 themselves or call [next()]; the
      handlers below are what runs when they call [next()].
    - The storage connection is taken to be reliable: the only storage
      errors modelled are the deterministic ones (validation failure and
      duplicate key on insert, a document to save that is not found,
      rejected cursor options and patterns).
    - What belongs to the storage server alone is a parameter with the laws
      the development relies on: its regular expressions ([Regex.Engine])
      and the order in which it returns sorted documents ([Sorter]). *)

From Stdlib Require Import ZArith Ascii String Bool Lia.
From stdpp Require Import base list strings sorting.

Local Open Scope Z_scope.

(** ** JavaScript values *)

Module JS.

Definition code (c : ascii) : nat := nat_of_ascii c.

Definition in_range (lo hi : nat) (c : ascii) : bool :=
  (lo <=? code c)%nat && (code c <=? hi)%nat.

Definition is_lower : ascii -> bool := in_range 97 122.
Definition is_upper : ascii -> bool := in_range 65 90.
Definition is_digit : ascii -> bool := in_range 48 57.
Definition is_alpha (c : ascii) : bool := is_lower c || is_upper c.
Definition is_alnum (c : ascii) : bool := is_alpha c || is_digit c.

(** ASCII lower-casing, as [String.prototype.toLowerCase] acts on ASCII. *)
Definition to_lower (c : ascii) : ascii :=
  if is_upper c then ascii_of_nat (code c + 32) else c.

Fixpoint map_chars (f : ascii -> ascii) (s : string) : string :=
  match s with
  | EmptyString => EmptyString
  | String c s' => String (f c) (map_chars f s')
  end.

Definition toLowerCase : string -> string := map_chars to_lower.

(** Every character, or some character, of the string satisfies [p]. *)
Definition chars_all (p : ascii -> bool) (s : string) : bool :=
  forallb p (list_ascii_of_string s).

Definition chars_any (p : ascii -> bool) (s : string) : bool :=
  existsb p (list_ascii_of_string s).

(** Truthiness of a parameter: [undefined] and the empty string are falsy. *)
Definition truthy (v : option string) : bool :=
  match v with
  | None => false
  | Some s => negb (String.eqb s "")
  end.

(** [v || ''] *)
Definition or_empty (v : option string) : string :=
  match v with
  | Some s => s
  | None => ""
  end.

(** White space and line terminators (below 256): TAB, LF, VT, FF, CR, SP,
    NBSP. *)
Definition is_space (c : ascii) : bool :=
  in_range 9 13 c || (code c =? 32)%nat || (code c =? 160)%nat.

Fixpoint drop_leading (p : ascii -> bool) (s : string) : string :=
  match s with
  | String c s' => if p c then drop_leading p s' else s
  | EmptyString => EmptyString
  end.

(** Drops the trailing characters satisfying [p]: a character is kept when
    it does not satisfy [p] or when something is kept after it. *)
Fixpoint drop_trailing (p : ascii -> bool) (s : string) : string :=
  match s with
  | EmptyString => EmptyString
  | String c s' =>
      match drop_trailing p s' with
      | EmptyString => if p c then EmptyString else String c EmptyString
      | t => String c t
      end
  end.

Definition trim_start : string -> string := drop_leading is_space.

(** [String.prototype.trim] *)
Definition trim (s : string) : string := drop_trailing is_space (trim_start s).

(** Value of a digit in the given radix. *)
Definition digit_value (radix : nat) (c : ascii) : option Z :=
  let v :=
    if is_digit c then Some (code c - 48)%nat
    else if is_lower c then Some (code c - 87)%nat
    else if is_upper c then Some (code c - 55)%nat
    else None in
  match v with
  | Some d => if (d <? radix)%nat then Some (Z.of_nat d) else None
  | None => None
  end.

(** Reads the longest prefix of digits; [acc] is [None] until a digit is
    seen. *)
Fixpoint digits (radix : nat) (acc : option Z) (s : string) : option Z :=
  match s with
  | EmptyString => acc
  | String c s' =>
      match digit_value radix c with
      | Some d =>
          digits radix (Some (match acc with Some a => a | None => 0 end * Z.of_nat radix + d)) s'
      | None => acc
      end
  end.

Definition strip_hex_prefix (s : string) : option string :=
  match s with
  | String "0" (String x s') =>
      if (code x =? 120)%nat || (code x =? 88)%nat then Some s' else None
  | _ => None
  end.

Definition unsigned_int (s : string) : option Z :=
  match strip_hex_prefix s with
  | Some h => digits 16 None h
  | None => digits 10 None s
  end.

(** The integer denoted by the numeral at the start of [s], if any: white
    space, a sign, and the digits. *)
Definition mathInt (s : string) : option Z :=
  match trim_start s with
  | String "-" s' => Z.opp <$> unsigned_int s'
  | String "+" s' => unsigned_int s'
  | s' => unsigned_int s'
  end.

(** The double nearest to the integer [z], ties to the even significand.
    Beyond 2^53 a double has 53 significant bits: the [k] low bits are
    rounded away. *)
Definition to_double (z : Z) : Z :=
  let a := Z.abs z in
  if a <=? 2 ^ 53 then z
  else
    let k := Z.log2 a - 52 in
    let q := Z.shiftr a k in
    let r := Z.land a (Z.ones k) in
    let half := 2 ^ (k - 1) in
    Z.sgn z * Z.shiftl (if (half <? r) || ((r =? half) && Z.odd q) then q + 1 else q) k.

(** A value rounded to 2^1024 or beyond is an infinity: [None] is a number
    that is not finite. *)
Definition finite (z : Z) : option Z :=
  if Z.abs z <? 2 ^ 1024 then Some z else None.

(** [x + y], [x - y] and [x * y] on integers that are doubles. *)
Definition plus (x y : Z) : Z := to_double (x + y).
Definition minus (x y : Z) : Z := to_double (x - y).
Definition times (x y : Z) : Z := to_double (x * y).

(** [parseInt(s)] with no radix argument; [None] is a result that is not a
    finite number: [NaN] when there is no numeral, an infinity when the
    numeral is beyond the doubles. *)
Definition parseInt (s : string) : option Z :=
  match mathInt s with
  | Some n => finite (to_double n)
  | None => None
  end.

End JS.


(** ** The platform's URL parser ([new URL(input)], no base)

    The scheme is read as the URL standard's basic parser does (scheme start
    state, scheme state, no scheme state).  What the parser does once an
    authority is involved (credentials, host, port, file host: host parsing
    with IDNA, IPv4 and IPv6) is taken as a parameter, [authority_states];
    every theorem holds for any such parser. *)

Module URL.

Definition is_c0_or_space (c : ascii) : bool := (JS.code c <=? 32)%nat.

Definition is_tab_or_newline (c : ascii) : bool :=
  (JS.code c =? 9)%nat || (JS.code c =? 10)%nat || (JS.code c =? 13)%nat.

Fixpoint remove (p : ascii -> bool) (s : string) : string :=
  match s with
  | EmptyString => EmptyString
  | String c s' => if p c then remove p s' else String c (remove p s')
  end.

(** Leading and trailing C0 control or space are removed, then every ASCII
    tab or newline. *)
Definition preprocess (input : string) : string :=
  remove is_tab_or_newline
    (JS.drop_trailing is_c0_or_space (JS.drop_leading is_c0_or_space input)).

Definition is_scheme_char (c : ascii) : bool :=
  JS.is_alnum c || (JS.code c =? 43)%nat || (JS.code c =? 45)%nat || (JS.code c =? 46)%nat.

(** Scheme state: [buffer] collects the lower-cased scheme up to the colon.
    Any other character, or the end of the input, leads to the no scheme
    state, which fails when there is no base URL. *)
Fixpoint scheme_state (buffer s : string) : option (string * string) :=
  match s with
  | EmptyString => None
  | String c s' =>
      if is_scheme_char c then scheme_state (buffer +:+ String (JS.to_lower c) EmptyString) s'
      else if (JS.code c =? 58)%nat then Some (buffer, s')
      else None
  end.

(** Scheme start state: a scheme starts with an ASCII letter. *)
Definition scheme_start_state (s : string) : option (string * string) :=
  match s with
  | String c s' =>
      if JS.is_alpha c then scheme_state (String (JS.to_lower c) EmptyString) s' else None
  | EmptyString => None
  end.

Definition special_schemes : list string := ["ftp"; "file"; "http"; "https"; "ws"; "wss"].

Definition is_special (scheme : string) : bool :=
  existsb (String.eqb scheme) special_schemes.

(** The parsed URL, as far as the development needs it: [host = None] is
    the null host. *)
Record url := { scheme : string; host : option string }.

(** The parser's states from the authority on, for an input whose scheme
    has been read: [authority_states scheme rest] is [None] when the parser
    returns failure and the host of the URL otherwise. *)
Class AuthorityParser := { authority_states : string -> string -> option string }.

Section Parser.
Context `{AuthorityParser}.

(** After the scheme: a special scheme goes to the file state or the
    special authority states; another scheme goes to the authority state
    when the rest starts with two slashes, and otherwise to the path state
    or the opaque path state, none of which fails. *)
Definition parse (input : string) : option url :=
  match scheme_start_state (preprocess input) with
  | None => None
  | Some (sch, rest) =>
      if is_special sch || String.prefix "//" rest
      then match authority_states sch rest with
           | Some h => Some {| scheme := sch; host := Some h |}
           | None => None
           end
      else Some {| scheme := sch; host := None |}
  end.

End Parser.

(** A reference authority parser, used to evaluate the examples: it accepts
    an authority that is a plain DNS name (letters, digits, hyphens and dots,
    the last label starting with a letter), optionally after slashes, and
    fails on anything else.  It is not a model of host parsing in general. *)
Definition is_name_char (c : ascii) : bool :=
  JS.is_alnum c || (JS.code c =? 45)%nat || (JS.code c =? 46)%nat.

Definition is_slash (c : ascii) : bool := (JS.code c =? 47)%nat || (JS.code c =? 92)%nat.

Definition is_authority_end (c : ascii) : bool :=
  is_slash c || (JS.code c =? 63)%nat || (JS.code c =? 35)%nat.

Fixpoint take_until (p : ascii -> bool) (s : string) : string :=
  match s with
  | EmptyString => EmptyString
  | String c s' => if p c then EmptyString else String c (take_until p s')
  end.

(** The label after the last dot starts with a letter. *)
Fixpoint last_label_alpha (start : bool) (ok : bool) (s : string) : bool :=
  match s with
  | EmptyString => ok
  | String c s' =>
      if (JS.code c =? 46)%nat then last_label_alpha true false s'
      else last_label_alpha false (if start then JS.is_alpha c else ok) s'
  end.

Definition plain_authority (sch rest : string) : option string :=
  let name := take_until is_authority_end (JS.drop_leading is_slash rest) in
  if JS.chars_all is_name_char name && last_label_alpha true false name
  then Some (JS.toLowerCase name)
  else None.

#[global] Instance reference_authority : AuthorityParser :=
  {| authority_states := plain_authority |}.

End URL.

(** ** The storage server's regular expressions ([$regex] with [$options: 'i'])

    The engine is the server's (PCRE), not the repository's: it is taken as
    a parameter with the laws the development relies on.  A pattern with no
    metacharacter is searched for as a substring, ignoring ASCII case; the
    dot matches any printable character. *)

Module Regex.

Definition is_ascii (c : ascii) : bool := (JS.code c <? 128)%nat.

Definition metacharacters : string := "\^$.[]|()?*+{}".

Definition is_meta (c : ascii) : bool :=
  existsb (Ascii.eqb c) (list_ascii_of_string metacharacters).

Definition is_nul (c : ascii) : bool := (JS.code c =? 0)%nat.

(** A pattern of ASCII characters none of which is a metacharacter or the
    NUL character (which the server refuses in a pattern). *)
Definition literal : string -> bool :=
  JS.chars_all (fun c => is_ascii c && negb (is_meta c) && negb (is_nul c)).

Definition ascii_text : string -> bool := JS.chars_all is_ascii.

Definition is_printable : ascii -> bool := JS.in_range 32 126.

(** [prefix_by eq p s]: [p] matches at the start of [s], characters being
    compared by [eq] (pattern character first). *)
Fixpoint prefix_by (eq : ascii -> ascii -> bool) (p s : string) : bool :=
  match p, s with
  | EmptyString, _ => true
  | String _ _, EmptyString => false
  | String a p', String b s' => eq a b && prefix_by eq p' s'
  end.

(** [search_by eq p s]: [p] matches somewhere in [s]. *)
Fixpoint search_by (eq : ascii -> ascii -> bool) (p s : string) : bool :=
  prefix_by eq p s ||
  match s with
  | EmptyString => false
  | String _ s' => search_by eq p s'
  end.

Definition ci_eq (a b : ascii) : bool := Ascii.eqb (JS.to_lower a) (JS.to_lower b).

(** [s] contains [q] as a substring, ignoring ASCII case. *)
Definition contains_ci (q s : string) : bool := search_by ci_eq q s.

Class Engine := {
  (** the server accepts the pattern *)
  valid : string -> bool;
  (** the pattern, caseless and unanchored, matches the value *)
  search : string -> string -> bool;
  literal_valid : forall p, literal p = true -> valid p = true;
  literal_search : forall p s,
    literal p = true -> ascii_text s = true -> search p s = contains_ci p s;
  dot_valid : valid "." = true;
  dot_search : forall s, JS.chars_any is_printable s = true -> search "." s = true
}.

(** A reference engine for the patterns made of literal characters and
    dots, used to evaluate the examples; it rejects every other pattern. *)
Definition is_line_break (c : ascii) : bool :=
  JS.in_range 10 13 c || (JS.code c =? 133)%nat.

Definition dot_or_ci (a b : ascii) : bool :=
  if Ascii.eqb a "." then negb (is_line_break b) else ci_eq a b.

Definition plain_valid : string -> bool :=
  JS.chars_all (fun c => is_ascii c && (negb (is_meta c) || Ascii.eqb c ".") && negb (is_nul c)).

Definition plain_search (p s : string) : bool := search_by dot_or_ci p s.

End Regex.

(** ** The collection ([urlSchema], [Url]) *)

Record Url := {
  originalUrl : string;
  shortSlug : string;
  title : string;
  description : string;
  visits : Z;
  createdAt : Z;
  isActive : bool
}.

Definition set_visits (v : Z) (d : Url) : Url :=
  {| originalUrl := originalUrl d; shortSlug := shortSlug d; title := title d;
     description := description d; visits := v; createdAt := createdAt d;
     isActive := isActive d |}.

Definition set_isActive (b : bool) (d : Url) : Url :=
  {| originalUrl := originalUrl d; shortSlug := shortSlug d; title := title d;
     description := description d; visits := visits d; createdAt := createdAt d;
     isActive := b |}.

(** [new Url({originalUrl, shortSlug, title, description, isActive: true})]:
    the string paths are trimmed by their setters, [visits] and [createdAt]
    take their defaults (0 and [Date.now]). *)
Definition new_Url (now : Z) (url slug ttl desc : string) : Url :=
  {| originalUrl := JS.trim url; shortSlug := JS.trim slug; title := JS.trim ttl;
     description := JS.trim desc; visits := 0; createdAt := now; isActive := true |}.

(** The unique index on [shortSlug]. *)
Definition unique_slugs (docs : list Url) : Prop :=
  forall i j d1 d2,
    docs !! i = Some d1 -> docs !! j = Some d2 -> shortSlug d1 = shortSlug d2 -> i = j.

(** The document holds the slug: the comparison of the server. *)
Definition has_slug (slug : string) (d : Url) : bool := String.eqb (shortSlug d) slug.

(** Query filters, [{ shortSlug: slug }] and [{ shortSlug: slug, isActive:
    true }]: the value given for [shortSlug] is cast with the setters of
    the path, so it is trimmed before it is sent. *)
Definition by_slug (slug : string) (d : Url) : bool := has_slug (JS.trim slug) d.

Definition by_slug_active (slug : string) (d : Url) : bool :=
  has_slug (JS.trim slug) d && Bool.eqb (isActive d) true.

Definition pick (f : Url -> bool) (docs : list Url) : option (nat * Url) :=
  list_find (fun d => f d = true) docs.

Inductive storage_error := ValidationError | DuplicateKey.

(** [save()] of a new document validates it first: the [required]
    validators reject an empty [originalUrl] or [shortSlug]. *)
Definition validates (d : Url) : bool :=
  negb (String.eqb (originalUrl d) "") && negb (String.eqb (shortSlug d) "").

(** The insert itself: the server rejects a [shortSlug] already in the
    collection (error code 11000); otherwise the document is appended. *)
Definition insert_doc (d : Url) (docs : list Url) : storage_error + list Url :=
  if existsb (has_slug (shortSlug d)) docs then inl DuplicateKey
  else inr (docs ++ [d]).

(** ** Handlers as stateful computations *)

Inductive storage_op := OpFindOne | OpInsert | OpUpdate | OpCount | OpFind | OpAggregate.

Record world := {
  db : list Url;
  oplog : list storage_op;
  drawn : nat
}.

Definition M (A : Type) : Type := world -> A * world.

Definition ret {A} (a : A) : M A := fun w => (a, w).

Definition bind {A B} (m : M A) (k : A -> M B) : M B :=
  fun w => let (a, w') := m w in k a w'.

Notation "'let*' x ':=' m 'in' k" := (bind m (fun x => k))
  (at level 10, x pattern, m at level 100, k at level 200).

(** Every call to the storage server is recorded in [oplog]. *)
Definition storage {A} (op : storage_op) (f : list Url -> A * list Url) : M A :=
  fun w =>
    let (a, docs) := f (db w) in
    (a, {| db := docs; oplog := oplog w ++ [op]; drawn := drawn w |}).

(** [Url.findOne(filter)]: the first matching document, with its position. *)
Definition findOne (f : Url -> bool) : M (option (nat * Url)) :=
  storage OpFindOne (fun docs => (pick f docs, docs)).

(** [newUrl.save()] *)
Definition save_new (d : Url) : M (option storage_error) :=
  if validates d then
    storage OpInsert (fun docs =>
      match insert_doc d docs with
      | inl e => (Some e, docs)
      | inr docs' => (None, docs')
      end)
  else ret (Some ValidationError).

(** [urlData.save()] after one path of a loaded document was assigned.
    When the assignment changed the loaded value, the modified path alone
    is written back ([updateOne] with [$set]) to the document with that
    [_id].  When it did not ([modified = false]), nothing is written and
    [save] checks that the document still exists, with a [findOne] by
    [_id].  The result tells whether the document was found: [save]
    rejects when it was not. *)
Definition save_path (i : nat) (modified : bool) (assign : Url -> Url) : M bool :=
  storage (if modified then OpUpdate else OpFindOne) (fun docs =>
    (match docs !! i with Some _ => true | None => false end,
     if modified then alter assign i docs else docs)).

(** ** The process environment and the random source *)

(** One call of [generateSlug] consumes one draw: [random] is the value of
    [Math.random()] scaled by 2^53 (so the value is [random mod 2^53] over
    2^53, in [0,1)) and [bytes] are the random bytes [nanoid] reads. *)
Record draw := { random : Z; bytes : nat -> Z }.

Record env := {
  now : Z;
  APP_DOMAIN : option string;
  ADMIN_KEY : option string;
  entropy : nat -> draw
}.

(** A value of [process.env] inside a template literal. *)
Definition interpolate (v : option string) : string :=
  match v with
  | Some s => s
  | None => "undefined"
  end.

(** ** Helper functions *)

Section Helpers.
Context `{URL.AuthorityParser}.

(** [validateUrl]: [new URL(url)] returns or throws. *)
Definition validateUrl (url : string) : bool :=
  match URL.parse url with
  | Some _ => true
  | None => false
  end.

End Helpers.

(** The character class of the slug pattern. *)
Definition slug_class (c : ascii) : bool :=
  JS.is_lower c || JS.is_upper c || JS.is_digit c
  || (JS.code c =? 95)%nat || (JS.code c =? 45)%nat.

(** A pattern [^[cls]{lo,hi}$] tested against [s]: between [lo] and [hi]
    characters of the class are consumed from the start, and the end of the
    input must follow. *)
Fixpoint anchored_repeat (cls : ascii -> bool) (lo hi : nat) (s : string) {struct s}
    : bool :=
  match s with
  | EmptyString => (lo =? 0)%nat
  | String c s' =>
      match hi with
      | O => false
      | S hi' => cls c && anchored_repeat cls (Nat.pred lo) hi' s'
      end
  end.

(** [validateSlug]: [/^[a-zA-Z0-9_-]{3,50}$/.test(slug)] *)
Definition validateSlug (slug : string) : bool := anchored_repeat slug_class 3 50 slug.

(** The alphabet of the [nanoid] package. *)
Definition urlAlphabet : string :=
  "useandom-26T198340PX75pxJACKVERYMINDBUSHWOLF_GQZbfghjklqvwyzrict".

Definition alphabet_at (b : Z) : ascii :=
  match String.get (Z.to_nat (Z.land b 63)) urlAlphabet with
  | Some c => c
  | None => "u"%char
  end.

(** [nanoid(size)]: one character of the alphabet per random byte, the byte
    masked with 63. *)
Fixpoint nanoid_from (pool : nat -> Z) (i size : nat) : string :=
  match size with
  | O => EmptyString
  | S n => String (alphabet_at (pool i)) (nanoid_from pool (S i) n)
  end.

Definition nanoid (size : nat) (pool : nat -> Z) : string := nanoid_from pool 0 size.

(** [Math.floor(Math.random() * (8 - 5 + 1)) + 5] *)
Definition slug_length (d : draw) : nat :=
  Z.to_nat ((random d mod 2 ^ 53) * (8 - 5 + 1) / 2 ^ 53 + 5).

Definition slug_of_draw (d : draw) : string := nanoid (slug_length d) (bytes d).

(** [generateSlug] *)
Definition generateSlug (e : env) : M string :=
  fun w =>
    (slug_of_draw (entropy e (drawn w)),
     {| db := db w; oplog := oplog w; drawn := S (drawn w) |}).

(** ** Responses *)

Record created_data := {
  c_originalUrl : string;
  c_shortUrl : string;
  c_shortSlug : string;
  c_title : string;
  c_description : string;
  c_createdAt : Z
}.

Record created_links := { l_access : string; l_delete : string; l_stats : string }.

Record deleted_data := { d_slug : string; d_originalUrl : string; d_deletedAt : Z }.

Record stats_data := {
  s_originalUrl : string;
  s_shortSlug : string;
  s_shortUrl : string;
  s_title : string;
  s_description : string;
  s_visits : Z;
  s_isActive : bool;
  s_createdAt : Z;
  s_lastAccessed : option Z
}.

(** [totalPages] is [None] when the quotient is not finite (serialised as
    [null]); [averageVisits] is kept as a fraction. *)
Record pagination := { p_page : Z; p_limit : Z; p_total : Z; p_totalPages : option Z }.

Record statistics := {
  totalUrls : Z;
  activeUrls : Z;
  inactiveUrls : Z;
  totalVisits : Z;
  averageVisits : Z * Z
}.

Inductive body :=
| Failure (error : string)
| Created (data : created_data) (links : option created_links)
| Deleted (message : string) (data : deleted_data)
| Listing (urls : list Url) (pages : pagination) (stats : statistics)
| Stats (data : stats_data).

Inductive response :=
| Json (status : nat) (b : body)
| Redirect (status : nat) (location : string).

Definition status_of (r : response) : nat :=
  match r with
  | Json s _ => s
  | Redirect s _ => s
  end.

(** The failures of the creation flow, by the names of the specification. *)
Inductive method := GET | POST.

Definition MissingURL (m : method) : response :=
  Json 400 (Failure match m with
                    | GET => "URL parameter is required"
                    | POST => "URL is required"
                    end).

Definition InvalidURL : response := Json 400 (Failure "Invalid URL format").

Definition InvalidSlugFormat : response :=
  Json 400 (Failure "Slug can only contain letters, numbers, hyphens, and underscores (3-50 characters)").

Definition SlugTaken : response :=
  Json 409 (Failure "Slug already exists, please choose another one").

Definition SlugTakenOnInsert : response :=
  Json 409 (Failure "Slug already exists, please try again").

Definition GenerationExhausted : response :=
  Json 500 (Failure "Failed to generate unique slug, please try again").

Definition CreateFailed : response := Json 500 (Failure "Failed to create short URL").

Definition ShortUrlNotFound : response := Json 404 (Failure "Short URL not found").

Definition RedirectFailed : response := Json 500 (Failure "Failed to redirect").

Definition UrlNotFound : response := Json 404 (Failure "URL not found").

Definition SlugRequired : response := Json 400 (Failure "Slug parameter is required").

Definition DeleteFailed : response := Json 500 (Failure "Failed to delete URL").

Definition Unauthorized : response := Json 401 (Failure "Admin key required").

Definition Forbidden : response := Json 403 (Failure "Invalid admin key").

Definition ListingFailed : response := Json 500 (Failure "Failed to fetch links data").

(** ** Creation: [GET /new] and [POST /new]

    The two handlers of the source differ in the name of the description
    parameter, in the message for a missing URL, and in the success
    response (200 with links, 201 without); they are one definition
    here, indexed by the method.  A request carries each parameter as a
    string or not at all; a parameter given several times, or a value of
    a JSON body that is not a string, is not a request of this model. *)

Record create_request := {
  q_url : option string;
  q_slug : option string;
  q_title : option string;
  q_desc : option string
}.

Definition created (m : method) (e : env) (url shortSlug ttl desc : string)
    (at_ : Z) : response :=
  let domain := interpolate (APP_DOMAIN e) in
  let data :=
    {| c_originalUrl := url;
       c_shortUrl := domain +:+ "/r/" +:+ shortSlug;
       c_shortSlug := shortSlug;
       c_title := ttl;
       c_description := desc;
       c_createdAt := at_ |} in
  match m with
  | GET =>
      Json 200 (Created data (Some
        {| l_access := domain +:+ "/r/" +:+ shortSlug;
           l_delete := domain +:+ "/delete.html?slug=" +:+ shortSlug;
           l_stats := domain +:+ "/stats/" +:+ shortSlug |}))
  | POST => Json 201 (Created data None)
  end.

(** The loop [while (!isUnique && attempts < 5)], by the number of attempts
    left: [None] when it ends with [isUnique] still false. *)
Fixpoint generate_unique (e : env) (attempts_left : nat) : M (option string) :=
  match attempts_left with
  | O => ret None
  | S n =>
      let* shortSlug := generateSlug e in
      let* existing := findOne (by_slug shortSlug) in
      match existing with
      | None => ret (Some shortSlug)
      | Some _ => generate_unique e n
      end
  end.

(** The slug of the new document, or the response that ends the request. *)
Definition resolve_slug (e : env) (slug : option string) : M (response + string) :=
  if JS.truthy slug then
    let shortSlug := JS.or_empty slug in
    if negb (validateSlug shortSlug) then ret (inl InvalidSlugFormat)
    else
      let* existing := findOne (by_slug shortSlug) in
      match existing with
      | Some _ => ret (inl SlugTaken)
      | None => ret (inr shortSlug)
      end
  else
    let* generated := generate_unique e 5 in
    match generated with
    | None => ret (inl GenerationExhausted)
    | Some shortSlug => ret (inr shortSlug)
    end.

Section Creation.
Context `{URL.AuthorityParser}.

Definition create (m : method) (e : env) (req : create_request) : M response :=
  if negb (JS.truthy (q_url req)) then ret (MissingURL m)
  else
    let url := JS.or_empty (q_url req) in
    if negb (validateUrl url) then ret InvalidURL
    else
      let* resolved := resolve_slug e (q_slug req) in
      match resolved with
      | inl failure => ret failure
      | inr shortSlug =>
          let ttl := JS.or_empty (q_title req) in
          let desc := JS.or_empty (q_desc req) in
          let newUrl := new_Url (now e) url shortSlug ttl desc in
          let* error := save_new newUrl in
          match error with
          | None => ret (created m e url shortSlug ttl desc (createdAt newUrl))
          | Some DuplicateKey => ret SlugTakenOnInsert
          | Some ValidationError => ret CreateFailed
          end
      end.

End Creation.

(** ** Redirect: [GET /r/:slug] *)

Definition redirect (slug : string) : M response :=
  let* urlData := findOne (by_slug_active slug) in
  match urlData with
  | None => ret ShortUrlNotFound
  | Some (i, d) =>
      let v := JS.plus (visits d) 1 in
      let* saved := save_path i (negb (v =? visits d)) (set_visits v) in
      if saved then ret (Redirect 301 (originalUrl d)) else ret RedirectFailed
  end.

(** ** Soft delete: [GET /delete.py?slug=] *)

Definition delete (e : env) (slug : option string) : M response :=
  if negb (JS.truthy slug) then ret SlugRequired
  else
    let s := JS.or_empty slug in
    let* urlData := findOne (by_slug s) in
    match urlData with
    | None => ret UrlNotFound
    | Some (i, d) =>
        let* saved := save_path i (negb (Bool.eqb false (isActive d))) (set_isActive false) in
        if saved then
          ret (Json 200 (Deleted "URL deleted successfully"
                 {| d_slug := s; d_originalUrl := originalUrl d; d_deletedAt := now e |}))
        else ret DeleteFailed
    end.

(** ** Statistics of one slug: [GET /stats/:slug] *)

Definition stats (e : env) (slug : string) : M response :=
  let* urlData := findOne (by_slug slug) in
  match urlData with
  | None => ret UrlNotFound
  | Some (_, d) =>
      ret (Json 200 (Stats
        {| s_originalUrl := originalUrl d;
           s_shortSlug := shortSlug d;
           s_shortUrl := interpolate (APP_DOMAIN e) +:+ "/r/" +:+ shortSlug d;
           s_title := title d;
           s_description := description d;
           s_visits := visits d;
           s_isActive := isActive d;
           s_createdAt := createdAt d;
           s_lastAccessed := if visits d >? 0 then Some (now e) else None |}))
  end.

(** ** Admin listing: [requireAdmin] and [GET /linksdata] *)

Record list_request := {
  q_adminKey : option string;
  q_page : option string;
  q_limit : option string;
  q_sort : option string;
  q_order : option string;
  q_search : option string;
  q_active : option string
}.

(** [adminKey !== process.env.ADMIN_KEY] *)
Definition differs (a b : option string) : bool :=
  match a, b with
  | Some x, Some y => negb (String.eqb x y)
  | None, None => false
  | _, _ => true
  end.

(** [middleware/auth.js]: [Some r] answers the request, [None] is [next()]. *)
Definition requireAdmin (e : env) (adminKey : option string) : option response :=
  if negb (JS.truthy adminKey) then Some Unauthorized
  else if differs adminKey (ADMIN_KEY e) then Some Forbidden
  else None.

(** A destructuring default applies to [undefined] only. *)
Definition default (d : string) (v : option string) : string :=
  match v with
  | Some s => s
  | None => d
  end.

(** [parseInt(page)] where [page] defaults to the number [d]. *)
Definition number_param (d : Z) (v : option string) : option Z :=
  match v with
  | Some s => JS.parseInt s
  | None => Some d
  end.

(** The query document: [isActive] when [active] is ['true'] or ['false'],
    [$or] over the four text paths when [search] is not empty. *)
Record query := { where_isActive : option bool; where_search : option string }.

Definition build_query (active search : string) : query :=
  {| where_isActive :=
       if String.eqb active "true" || String.eqb active "false"
       then Some (String.eqb active "true") else None;
     where_search := if negb (String.eqb search "") then Some search else None |}.

(** Values of the sort path, ordered within one type. *)
Inductive sort_key := KNull | KNum (z : Z) | KStr (s : string) | KBool (b : bool).

Definition key_rank (k : sort_key) : nat :=
  match k with
  | KNull => 0
  | KNum _ => 1
  | KStr _ => 2
  | KBool _ => 3
  end.

Definition key_leb (a b : sort_key) : bool :=
  match a, b with
  | KNum x, KNum y => x <=? y
  | KStr s, KStr t => String.leb s t
  | KBool x, KBool y => implb x y
  | _, _ => (key_rank a <=? key_rank b)%nat
  end.

Definition schema_paths : list string :=
  ["originalUrl"; "shortSlug"; "title"; "description"; "visits"; "createdAt";
   "isActive"; "_id"; "__v"].

Definition known_path (path : string) : bool := existsb (String.eqb path) schema_paths.

(** The value of [path] in the document at position [i]. *)
Definition path_value (path : string) (doc : nat * Url) : sort_key :=
  let (i, d) := doc in
  if String.eqb path "originalUrl" then KStr (originalUrl d)
  else if String.eqb path "shortSlug" then KStr (shortSlug d)
  else if String.eqb path "title" then KStr (title d)
  else if String.eqb path "description" then KStr (description d)
  else if String.eqb path "visits" then KNum (visits d)
  else if String.eqb path "createdAt" then KNum (createdAt d)
  else if String.eqb path "isActive" then KBool (isActive d)
  else if String.eqb path "_id" then KNum (Z.of_nat i)
  else if String.eqb path "__v" then KNum 0
  else KNull.

(** Documents before [x] in the order stay before it. *)
Fixpoint insert_sorted {A} (before : A -> A -> bool) (x : A) (l : list A) : list A :=
  match l with
  | [] => [x]
  | y :: l' => if before x y then x :: l else y :: insert_sorted before x l'
  end.

Definition sort_by {A} (before : A -> A -> bool) (l : list A) : list A :=
  foldr (insert_sorted before) [] l.

(** [a] may come before [b] in [.sort({ [path]: desc ? -1 : 1 })]. *)
Definition in_order (path : string) (desc : bool) (a b : nat * Url) : bool :=
  if desc then key_leb (path_value path b) (path_value path a)
  else key_leb (path_value path a) (path_value path b).

(** [.sort({ [sort]: order === 'desc' ? -1 : 1 })] is the server's: the
    order among documents with equal values of the path is its choice, and
    so is what it does with a path the schema does not declare ([None]
    when it rejects the path).  It is a parameter; for a path of the schema
    it returns the documents given, in order. *)
Class Sorter := {
  sort : string -> bool -> list (nat * Url) -> option (list (nat * Url));
  sort_known : forall path desc docs,
    known_path path = true ->
    exists sorted,
      sort path desc docs = Some sorted /\ sorted ≡ₚ docs /\
      StronglySorted (fun a b => in_order path desc a b = true) sorted
}.

(** A reference sort, used to evaluate the examples: documents with equal
    values stay in collection order. *)
Definition sort_docs (path : string) (desc : bool) (docs : list (nat * Url))
    : list (nat * Url) :=
  sort_by (in_order path desc) docs.

(** [.skip(skip).limit(limit)]: a skip or a limit that is not a finite
    number is rejected, and so is a negative skip; a limit of 0 is no
    limit, a negative limit is its absolute value. *)
Definition paginate {A} (skip limit : option Z) (l : list A) : option (list A) :=
  match skip, limit with
  | Some s, Some n =>
      if s <? 0 then None
      else Some (if n =? 0 then drop (Z.to_nat s) l
                 else take (Z.to_nat (Z.abs n)) (drop (Z.to_nat s) l))
  | _, _ => None
  end.

(** [Math.ceil(total / limitNum)] *)
Definition ceil_div (a b : Z) : option Z :=
  if b =? 0 then None else Some (- (- a / b)).

Definition sum_visits (docs : list Url) : Z := foldr (fun d acc => visits d + acc) 0 docs.

Section Listing.
Context `{Regex.Engine} `{Sorter}.

Definition matches (q : query) (d : Url) : bool :=
  match where_isActive q with
  | Some b => Bool.eqb (isActive d) b
  | None => true
  end &&
  match where_search q with
  | Some p =>
      Regex.search p (originalUrl d) || Regex.search p (shortSlug d)
      || Regex.search p (title d) || Regex.search p (description d)
  | None => true
  end.

Definition accepted (q : query) : bool :=
  match where_search q with
  | Some p => Regex.valid p
  | None => true
  end.

(** The matching documents in collection order, with their positions. *)
Definition selected (q : query) (docs : list Url) : list (nat * Url) :=
  List.filter (fun doc => matches q (snd doc)) (imap pair docs).

(** [Url.countDocuments(query)]; [None] when the server rejects the query. *)
Definition countDocuments (q : query) : M (option Z) :=
  storage OpCount (fun docs =>
    (if accepted q then Some (Z.of_nat (length (selected q docs))) else None, docs)).

(** [Url.find(query).sort(..).skip(..).limit(..).lean()] *)
Definition find (q : query) (path : string) (desc : bool) (skip limit : option Z)
    : M (option (list Url)) :=
  storage OpFind (fun docs =>
    (if accepted q
     then match sort path desc (selected q docs) with
          | Some sorted => fmap (M := option) (map snd) (paginate skip limit sorted)
          | None => None
          end
     else None, docs)).

(** [Url.aggregate([{$match: {isActive: true}}, {$group: {_id: null, total: {$sum: "$visits"}}}])],
    read as [totalVisits[0]?.total || 0]. *)
Definition aggregate_visits : M Z :=
  storage OpAggregate (fun docs => (sum_visits (List.filter isActive docs), docs)).

Definition only_active : query := {| where_isActive := Some true; where_search := None |}.

Definition linksdata_handler (req : list_request) : M response :=
  let pageNum := number_param 1 (q_page req) in
  let limitNum := number_param 100 (q_limit req) in
  let skip :=
    match pageNum, limitNum with
    | Some p, Some l => JS.finite (JS.times (JS.minus p 1) l)
    | _, _ => None
    end in
  let q := build_query (default "true" (q_active req)) (default "" (q_search req)) in
  let* total := countDocuments q in
  match total with
  | None => ret ListingFailed
  | Some total =>
      let* urls := find q (default "createdAt" (q_sort req))
                     (String.eqb (default "desc" (q_order req)) "desc") skip limitNum in
      match urls, pageNum, limitNum with
      | Some urls, Some p, Some l =>
          let* activeCount := countDocuments only_active in
          let* visited := aggregate_visits in
          let activeCount := match activeCount with Some n => n | None => 0 end in
          ret (Json 200 (Listing urls
            {| p_page := p; p_limit := l; p_total := total; p_totalPages := ceil_div total l |}
            {| totalUrls := total;
               activeUrls := activeCount;
               inactiveUrls := total - activeCount;
               totalVisits := visited;
               averageVisits := if activeCount >? 0 then (visited, activeCount) else (0, 1) |}))
      | _, _, _ => ret ListingFailed
      end
  end.

(** The route: [requireAdmin], then the handler. *)
Definition linksdata (e : env) (req : list_request) : M response :=
  match requireAdmin e (q_adminKey req) with
  | Some answer => ret answer
  | None => linksdata_handler req
  end.

End Listing.

(** ** Overlapping redirects

    A redirect issues two storage operations, [findOne] and [save], and
    awaits each: between the two, the server may serve operations of other
    requests.  A task is a redirect request at one of its await points. *)

Inductive task :=
| Arrived (slug : string)
| Loaded (i : nat) (d : Url)
| Answered (r : response).

(** The next storage operation of a task and what the handler does until
    the following await. *)
Definition advance (t : task) : M task :=
  match t with
  | Arrived slug =>
      let* urlData := findOne (by_slug_active slug) in
      match urlData with
      | None => ret (Answered ShortUrlNotFound)
      | Some (i, d) => ret (Loaded i d)
      end
  | Loaded i d =>
      let v := JS.plus (visits d) 1 in
      let* saved := save_path i (negb (v =? visits d)) (set_visits v) in
      if saved then ret (Answered (Redirect 301 (originalUrl d)))
      else ret (Answered RedirectFailed)
  | Answered r => ret (Answered r)
  end.

(** A schedule names, step by step, the task whose operation is served. *)
Fixpoint interleave (schedule : list nat) (tasks : list task) : M (list task) :=
  match schedule with
  | [] => ret tasks
  | k :: rest =>
      match tasks !! k with
      | Some t =>
          let* t' := advance t in
          interleave rest (<[k := t']> tasks)
      | None => interleave rest tasks
      end
  end.

(** [n] redirects served one after another. *)
Fixpoint serially (n : nat) (slug : string) : M (list response) :=
  match n with
  | O => ret []
  | S k =>
      let* r := redirect slug in
      let* rs := serially k slug in
      ret (r :: rs)
  end.

(** ** Overlapping creations

    A creation awaits each [findOne] and the final [save]: between two of
    them the server may serve operations of other requests.  A creation is
    a request at one of these points. *)

Inductive creation :=
| Requested (m : method) (e : env) (req : create_request)
| Generating (m : method) (e : env) (req : create_request) (attempts_left : nat)
| Saving (m : method) (e : env) (req : create_request) (shortSlug : string)
| Replied (r : response).

(** One turn of the generation loop, [attempts_left] counting this turn:
    after a collision the loop condition is tested at once, so the request
    fails without another await when no attempt is left. *)
Definition attempt (m : method) (e : env) (req : create_request)
    (attempts_left : nat) : M creation :=
  let* shortSlug := generateSlug e in
  let* existing := findOne (by_slug shortSlug) in
  match existing with
  | None => ret (Saving m e req shortSlug)
  | Some _ =>
      match Nat.pred attempts_left with
      | O => ret (Replied GenerationExhausted)
      | S n => ret (Generating m e req (S n))
      end
  end.

Section Creations.
Context `{URL.AuthorityParser}.

(** The last step of the handler: the insert and the response. *)
Definition finish (m : method) (e : env) (req : create_request) (shortSlug : string)
    : M response :=
  let url := JS.or_empty (q_url req) in
  let ttl := JS.or_empty (q_title req) in
  let desc := JS.or_empty (q_desc req) in
  let newUrl := new_Url (now e) url shortSlug ttl desc in
  let* error := save_new newUrl in
  match error with
  | None => ret (created m e url shortSlug ttl desc (createdAt newUrl))
  | Some DuplicateKey => ret SlugTakenOnInsert
  | Some ValidationError => ret CreateFailed
  end.

(** What the handler does up to and including its next storage operation
    (none when the request fails validation). *)
Definition proceed (t : creation) : M creation :=
  match t with
  | Requested m e req =>
      if negb (JS.truthy (q_url req)) then ret (Replied (MissingURL m))
      else if negb (validateUrl (JS.or_empty (q_url req))) then ret (Replied InvalidURL)
      else if JS.truthy (q_slug req) then
        let shortSlug := JS.or_empty (q_slug req) in
        if negb (validateSlug shortSlug) then ret (Replied InvalidSlugFormat)
        else
          let* existing := findOne (by_slug shortSlug) in
          match existing with
          | Some _ => ret (Replied SlugTaken)
          | None => ret (Saving m e req shortSlug)
          end
      else attempt m e req 5
  | Generating m e req attempts_left =>
      match attempts_left with
      | O => ret (Replied GenerationExhausted)
      | S _ => attempt m e req attempts_left
      end
  | Saving m e req shortSlug =>
      let url := JS.or_empty (q_url req) in
      let ttl := JS.or_empty (q_title req) in
      let desc := JS.or_empty (q_desc req) in
      let newUrl := new_Url (now e) url shortSlug ttl desc in
      let* error := save_new newUrl in
      match error with
      | None => ret (Replied (created m e url shortSlug ttl desc (createdAt newUrl)))
      | Some DuplicateKey => ret (Replied SlugTakenOnInsert)
      | Some ValidationError => ret (Replied CreateFailed)
      end
  | Replied r => ret (Replied r)
  end.

(** One creation run on its own for [steps] steps. *)
Fixpoint settle (steps : nat) (t : creation) : M creation :=
  match steps with
  | O => ret t
  | S n =>
      let* t' := proceed t in
      settle n t'
  end.

(** A schedule names, step by step, the creation whose operation is
    served. *)
Fixpoint overlap (schedule : list nat) (ts : list creation) : M (list creation) :=
  match schedule with
  | [] => ret ts
  | k :: rest =>
      match ts !! k with
      | Some t =>
          let* t' := proceed t in
          overlap rest (<[k := t']> ts)
      | None => overlap rest ts
      end
  end.

End Creations.

(** ** Histories of requests *)

Inductive operation :=
| DoCreate (m : method) (req : create_request)
| DoRedirect (slug : string)
| DoDelete (slug : option string)
| DoList (req : list_request)
| DoStats (slug : string).

Section Histories.
Context `{URL.AuthorityParser} `{Regex.Engine} `{Sorter}.

Definition perform (e : env) (op : operation) : M response :=
  match op with
  | DoCreate m req => create m e req
  | DoRedirect slug => redirect slug
  | DoDelete slug => delete e slug
  | DoList req => linksdata e req
  | DoStats slug => stats e slug
  end.

(** Requests served one after another, each in its own environment (its
    time of arrival). *)
Fixpoint serve (history : list (env * operation)) : M (list response) :=
  match history with
  | [] => ret []
  | (e, op) :: rest =>
      let* r := perform e op in
      let* rs := serve rest in
      ret (r :: rs)
  end.

End Histories.

(** ** Sample data for the examples *)

Module Sample.

Definition a_draw (n : nat) : draw :=
  {| random := Z.of_nat n * 2 ^ 51 + 7; bytes := fun i => Z.of_nat (i + 10 * n) |}.

Definition an_env : env :=
  {| now := 1000;
     APP_DOMAIN := Some "http://localhost:4056";
     ADMIN_KEY := Some "secret";
     entropy := a_draw |}.

Definition later : env :=
  {| now := 2000;
     APP_DOMAIN := Some "http://localhost:4056";
     ADMIN_KEY := Some "secret";
     entropy := a_draw |}.

Definition my_link : Url :=
  {| originalUrl := "https://example.com"; shortSlug := "my-link"; title := "";
     description := ""; visits := 0; createdAt := 1000; isActive := true |}.

Definition local_link : Url :=
  {| originalUrl := "http://localhost"; shortSlug := "abcde"; title := "";
     description := ""; visits := 3; createdAt := 500; isActive := true |}.

(** A source that keeps producing the same slug. *)
Definition stuck : env :=
  {| now := 1000;
     APP_DOMAIN := Some "http://localhost:4056";
     ADMIN_KEY := Some "secret";
     entropy := fun _ => a_draw 0 |}.

Definition usean : Url :=
  {| originalUrl := "https://example.org"; shortSlug := "usean"; title := "";
     description := ""; visits := 0; createdAt := 10; isActive := true |}.

Definition empty : world := {| db := []; oplog := []; drawn := 0 |}.

Definition one_link : world := {| db := [my_link]; oplog := []; drawn := 0 |}.

Definition two_links : world := {| db := [my_link; local_link]; oplog := []; drawn := 0 |}.

Definition a_request (url slug : option string) : create_request :=
  {| q_url := url; q_slug := slug; q_title := None; q_desc := None |}.

Definition a_listing (key search limit : option string) : list_request :=
  {| q_adminKey := key; q_page := None; q_limit := limit; q_sort := None;
     q_order := None; q_search := search; q_active := Some "true" |}.

End Sample.

(** ** Vocabulary of the properties *)

(** The slug the generator yields on its [j]-th call from the state [w]. *)
Definition candidate (e : env) (w : world) (j : nat) : string :=
  slug_of_draw (entropy e (drawn w + j)).

(** The slug is held by some document of the collection. *)
Definition taken (slug : string) (docs : list Url) : bool := existsb (has_slug slug) docs.






(** The document is active and one of its four text paths contains [q],
    ignoring ASCII case. *)
Definition wanted (q : string) (d : Url) : bool :=
  isActive d &&
  (Regex.contains_ci q (originalUrl d) || Regex.contains_ci q (shortSlug d)
   || Regex.contains_ci q (title d) || Regex.contains_ci q (description d)).

(** The four text paths of the document are ASCII. *)
Definition ascii_doc (d : Url) : bool :=
  Regex.ascii_text (originalUrl d) && Regex.ascii_text (shortSlug d)
  && Regex.ascii_text (title d) && Regex.ascii_text (description d).

(** The redirects of [tasks] that have been answered 301. *)
Definition redirected (tasks : list task) : nat :=
  length (List.filter (fun t => match t with
                                | Answered (Redirect _ _) => true
                                | _ => false
                                end) tasks).

(** A task that was answered 301. *)
Definition is_redirected (t : task) : bool :=
  match t with
  | Answered (Redirect _ _) => true
  | _ => false
  end.

(** A redirect in flight for the slug [s] of the document [d0] stored at
    position [i], when [k] redirects have been answered: it has not looked
    the document up yet, or it holds a copy of it with a count between the
    initial one and the initial one plus [k], or it was answered 301. *)
Definition in_flight (s : string) (i : nat) (d0 : Url) (k : nat) (t : task) : Prop :=
  match t with
  | Arrived slug => slug = s
  | Loaded j loaded =>
      j = i /\ exists y, loaded = set_visits y d0 /\
        visits d0 <= y <= visits d0 + Z.of_nat k
  | Answered r => r = Redirect 301 (originalUrl d0)
  end.

(** The stored count lies between the initial count and the initial count
    plus the number of redirects answered, and above the initial count once
    one was answered. *)
Definition counted (s : string) (i : nat) (d0 : Url) (docs0 : list Url)
    (tasks : list task) (w : world) : Prop :=
  exists x,
    db w = <[i := set_visits x d0]> docs0 /\
    visits d0 <= x <= visits d0 + Z.of_nat (redirected tasks) /\
    ((0 < redirected tasks)%nat -> visits d0 + 1 <= x) /\
    Forall (in_flight s i d0 (redirected tasks)) tasks.

(** Every stored slug matches the pattern of custom slugs. *)
Definition valid_slugs (docs : list Url) : Prop :=
  forall d, d ∈ docs -> validateSlug (shortSlug d) = true.

(** [d'] is the document [d] with, at most, another count and state. *)
Definition same_link (d d' : Url) : Prop :=
  shortSlug d' = shortSlug d /\ originalUrl d' = originalUrl d /\
  title d' = title d /\ description d' = description d.

(** A storage operation that reads. *)
Definition is_read (op : storage_op) : bool :=
  match op with
  | OpFindOne | OpCount | OpFind | OpAggregate => true
  | OpInsert | OpUpdate => false
  end.

(** * Properties *)

(** ** The reference engine satisfies the laws of the interface *)

Module RegexFacts.
Import Regex.

Lemma literal_cons c p :
  literal (String c p) = true ->
  is_ascii c = true /\ is_meta c = false /\ literal p = true.
Proof.
  unfold literal, JS.chars_all. simpl.
  rewrite !andb_true_iff, !negb_true_iff. tauto.
Qed.

Lemma literal_not_dot c : is_meta c = false -> Ascii.eqb c "." = false.
Proof.
  intros Hm. destruct (Ascii.eqb c ".") eqn:E; [|reflexivity].
  apply Ascii.eqb_eq in E. subst c. discriminate Hm.
Qed.

Lemma prefix_by_literal p s :
  literal p = true -> prefix_by dot_or_ci p s = prefix_by ci_eq p s.
Proof.
  revert s. induction p as [|a p IH]; intros s Hp; [reflexivity|].
  apply literal_cons in Hp as (_ & Hm & Hp).
  destruct s as [|b s]; [reflexivity|]. simpl.
  rewrite (IH s Hp). unfold dot_or_ci. now rewrite (literal_not_dot a Hm).
Qed.

Lemma plain_search_literal p s :
  literal p = true -> plain_search p s = contains_ci p s.
Proof.
  intros Hp. unfold plain_search, contains_ci.
  induction s as [|b s IH]; simpl.
  - now rewrite prefix_by_literal.
  - rewrite IH. now rewrite prefix_by_literal.
Qed.

Lemma plain_valid_literal p : literal p = true -> plain_valid p = true.
Proof.
  unfold literal, plain_valid, JS.chars_all.
  induction (list_ascii_of_string p) as [|c l IH]; simpl; [reflexivity|].
  rewrite !andb_true_iff. intros [[[Ha Hm] Hn] Hl].
  rewrite Ha, Hm, Hn. auto.
Qed.

Lemma printable_not_line_break c : is_printable c = true -> is_line_break c = false.
Proof.
  unfold is_printable, is_line_break, JS.in_range.
  rewrite andb_true_iff, !Nat.leb_le. intros [Hlo Hhi].
  apply orb_false_iff. split.
  - apply andb_false_iff. right. apply Nat.leb_gt. lia.
  - apply Nat.eqb_neq. lia.
Qed.

Lemma plain_search_dot s :
  JS.chars_any is_printable s = true -> plain_search "." s = true.
Proof.
  unfold plain_search, JS.chars_any.
  induction s as [|c s IH]; simpl; [discriminate|].
  destruct (is_printable c) eqn:Hc; simpl.
  - intros _. unfold dot_or_ci. simpl.
    now rewrite (printable_not_line_break c Hc).
  - intros Hs. rewrite (IH Hs). apply orb_true_r.
Qed.

#[global] Instance reference_engine : Engine :=
  {| valid := plain_valid;
     search := plain_search;
     literal_valid := plain_valid_literal;
     literal_search := fun p s Hp _ => plain_search_literal p s Hp;
     dot_valid := eq_refl;
     dot_search := plain_search_dot |}.

End RegexFacts.

(** ** Numbers *)

(** Up to 2^53 an integer is a double. *)
Lemma to_double_exact z : Z.abs z <= 2 ^ 53 -> JS.to_double z = z.
Proof.
  intros Hz. unfold JS.to_double.
  now replace (Z.abs z <=? 2 ^ 53) with true by (symmetry; apply Z.leb_le; exact Hz).
Qed.

Lemma to_double_opp z : JS.to_double (- z) = - JS.to_double z.
Proof.
  unfold JS.to_double. rewrite Z.abs_opp, Z.sgn_opp.
  destruct (Z.abs z <=? 2 ^ 53); [reflexivity|]. cbv zeta. ring.
Qed.

(** Rounding keeps the sign. *)
Lemma to_double_pos z : 0 < z -> 0 < JS.to_double z.
Proof.
  intros Hz. unfold JS.to_double.
  destruct (Z.abs z <=? 2 ^ 53) eqn:E; [exact Hz|].
  apply Z.leb_gt in E. rewrite Z.abs_eq in * by lia.
  rewrite Z.sgn_pos by exact Hz. rewrite Z.mul_1_l. cbv zeta.
  assert (Hlog : 53 <= Z.log2 z).
  { change 53 with (Z.log2 (2 ^ 53)). apply Z.log2_le_mono. lia. }
  set (k := Z.log2 z - 52) in *.
  assert (Hk : 0 < k) by (unfold k; lia).
  assert (Hq : 0 < Z.shiftr z k).
  { rewrite Z.shiftr_div_pow2 by lia. apply Z.div_str_pos.
    split; [apply Z.pow_pos_nonneg; lia|].
    transitivity (2 ^ Z.log2 z); [apply Z.pow_le_mono_r; unfold k; lia|].
    apply Z.log2_spec. exact Hz. }
  rewrite Z.shiftl_mul_pow2 by lia.
  apply Z.mul_pos_pos; [|apply Z.pow_pos_nonneg; lia].
  destruct (_ || _); lia.
Qed.

Lemma to_double_neg z : z < 0 -> JS.to_double z < 0.
Proof.
  intros Hz. replace z with (- - z) by lia. rewrite to_double_opp.
  pose proof (to_double_pos (- z)). lia.
Qed.

Lemma plus_exact x y : Z.abs (x + y) <= 2 ^ 53 -> JS.plus x y = x + y.
Proof. apply to_double_exact. Qed.

(** Below 2^53 adding 1 is exact; at 2^53 it yields 2^53 again. *)
Lemma plus_one v : Z.abs v <= 2 ^ 53 -> v < 2 ^ 53 -> JS.plus v 1 = v + 1.
Proof. intros Hv Hlt. apply plus_exact. lia. Qed.



Lemma plus_one_pos v : 0 <= v -> 0 < JS.plus v 1.
Proof. intros Hv. apply to_double_pos. lia. Qed.

Lemma finite_exact z : Z.abs z <= 2 ^ 53 -> JS.finite z = Some z.
Proof.
  intros Hz. unfold JS.finite.
  replace (Z.abs z <? 2 ^ 1024) with true; [reflexivity|].
  symmetry. apply Z.ltb_lt. eapply Z.le_lt_trans; [exact Hz|].
  apply Z.pow_lt_mono_r; lia.
Qed.

(** [(page - 1) * limit] for a page and a limit of at least 1 whose
    product is at most 2^53. *)
Lemma skip_exact p l :
  1 <= p -> 1 <= l -> p * l <= 2 ^ 53 ->
  JS.finite (JS.times (JS.minus p 1) l) = Some ((p - 1) * l).
Proof.
  intros Hp Hl Hpl. unfold JS.times, JS.minus.
  rewrite (to_double_exact (p - 1)) by nia.
  rewrite to_double_exact by nia. apply finite_exact. nia.
Qed.

(** With a page below 1 and a limit of at least 1 the skip is negative, or
    not finite. *)
Lemma skip_negative p l s :
  p <= 0 -> 1 <= l -> JS.finite (JS.times (JS.minus p 1) l) = Some s -> s < 0.
Proof.
  intros Hp Hl. unfold JS.finite.
  destruct (_ <? _); [|discriminate]. intros [= <-].
  unfold JS.times, JS.minus. apply to_double_neg.
  pose proof (to_double_neg (p - 1)). nia.
Qed.


(** ** The reference sort satisfies the law of the interface *)

Lemma insert_sorted_perm {A} (before : A -> A -> bool) x l :
  insert_sorted before x l ≡ₚ x :: l.
Proof.
  induction l as [|y l IH]; simpl; [reflexivity|].
  destruct (before x y); [reflexivity|].
  rewrite IH. apply Permutation_swap.
Qed.

Lemma sort_by_perm {A} (before : A -> A -> bool) l : sort_by before l ≡ₚ l.
Proof.
  unfold sort_by. induction l as [|x l IH]; simpl; [reflexivity|].
  now rewrite insert_sorted_perm, IH.
Qed.

Section InsertionSort.
Context {A : Type} (before : A -> A -> bool).
Hypothesis before_total : forall x y, before x y = false -> before y x = true.
Hypothesis before_trans : forall x y z,
  before x y = true -> before y z = true -> before x z = true.

Lemma insert_sorted_sorted x l :
  StronglySorted (fun a b => before a b = true) l ->
  StronglySorted (fun a b => before a b = true) (insert_sorted before x l).
Proof.
  induction l as [|y l IH]; intros Hl; cbn [insert_sorted].
  - repeat constructor.
  - apply StronglySorted_inv in Hl as [Hl Hy].
    destruct (before x y) eqn:Hxy.
    + constructor; [now constructor|]. constructor; [exact Hxy|].
      eapply Forall_impl; [exact Hy|]. intros z Hz. cbv beta in *. eauto.
    + constructor; [now apply IH|].
      rewrite (insert_sorted_perm before x l). constructor; auto.
Qed.

Lemma sort_by_sorted l : StronglySorted (fun a b => before a b = true) (sort_by before l).
Proof.
  unfold sort_by. induction l as [|x l IH]; cbn [foldr]; [constructor|].
  now apply insert_sorted_sorted.
Qed.

End InsertionSort.

Module SorterFacts.

(** The order of strings is transitive. *)
Lemma string_leb_trans s : forall t u,
  String.leb s t = true -> String.leb t u = true -> String.leb s u = true.
Proof.
  unfold String.leb.
  induction s as [|a s IH]; intros [|b t] [|c u]; cbn [String.compare];
    try (intros; reflexivity); try discriminate.
  unfold Ascii.compare.
  destruct (N.compare_spec (N_of_ascii a) (N_of_ascii b)) as [Hab|Hab|Hab];
    [| |discriminate].
  - rewrite Hab. destruct (N_of_ascii b ?= N_of_ascii c)%N; [apply IH | reflexivity | discriminate].
  - intros _.
    destruct (N.compare_spec (N_of_ascii b) (N_of_ascii c)) as [Hbc|Hbc|Hbc];
      [| |discriminate]; intros _.
    + rewrite <- Hbc. apply N.compare_lt_iff in Hab. now rewrite Hab.
    + assert (Hac : (N_of_ascii a < N_of_ascii c)%N) by lia.
      apply N.compare_lt_iff in Hac. now rewrite Hac.
Qed.

Lemma key_leb_total a b : key_leb a b = false -> key_leb b a = true.
Proof.
  destruct a as [|x|s|x], b as [|y|t|y]; cbn; try discriminate; try reflexivity.
  - rewrite Z.leb_gt, Z.leb_le. lia.
  - intros Hst. destruct (String.leb_total s t) as [Hl|Hl]; congruence.
  - now destruct x, y.
Qed.

Lemma key_leb_trans a b c :
  key_leb a b = true -> key_leb b c = true -> key_leb a c = true.
Proof.
  destruct a as [|x|s|x], b as [|y|t|y], c as [|z|u|z]; cbn;
    try discriminate; try reflexivity.
  - rewrite !Z.leb_le. lia.
  - apply string_leb_trans.
  - now destruct x, y, z.
Qed.

Lemma sort_docs_perm path desc docs : sort_docs path desc docs ≡ₚ docs.
Proof. apply sort_by_perm. Qed.

Lemma sort_docs_sorted path desc docs :
  StronglySorted (fun a b => in_order path desc a b = true) (sort_docs path desc docs).
Proof.
  apply sort_by_sorted; unfold in_order.
  - intros a b. destruct desc; apply key_leb_total.
  - intros a b c. destruct desc; eauto using key_leb_trans.
Qed.

#[global] Instance reference_sorter : Sorter :=
  {| sort := fun path desc docs => Some (sort_docs path desc docs);
     sort_known := fun path desc docs _ =>
       ex_intro _ (sort_docs path desc docs)
         (conj eq_refl (conj (sort_docs_perm path desc docs)
                          (sort_docs_sorted path desc docs))) |}.

End SorterFacts.

(** ** The storage primitives *)

Lemma pick_Some f docs i d :
  pick f docs = Some (i, d) <->
  docs !! i = Some d /\ f d = true /\
  forall j y, docs !! j = Some y -> (j < i)%nat -> f y <> true.
Proof. unfold pick. apply (list_find_Some (fun x => f x = true)). Qed.

Lemma pick_None f docs :
  pick f docs = None <-> forall d, d ∈ docs -> f d = false.
Proof.
  unfold pick. rewrite (list_find_None (fun x => f x = true)), Forall_forall.
  split; intros Hall d Hd; specialize (Hall d Hd).
  - now destruct (f d).
  - now rewrite Hall.
Qed.

Lemma has_slug_true slug d : has_slug slug d = true <-> shortSlug d = slug.
Proof. unfold has_slug. apply String.eqb_eq. Qed.

(** A query by slug finds the documents that hold the slug trimmed. *)
Lemma by_slug_true slug d : by_slug slug d = true <-> shortSlug d = JS.trim slug.
Proof. apply has_slug_true. Qed.

Lemma by_slug_active_true slug d :
  by_slug_active slug d = true <-> shortSlug d = JS.trim slug /\ isActive d = true.
Proof.
  unfold by_slug_active. rewrite andb_true_iff, has_slug_true.
  destruct (isActive d); simpl; intuition congruence.
Qed.

(** Under the unique index the document of a slug is the one every query
    by that slug finds. *)
Lemma pick_by_slug docs slug i d :
  unique_slugs docs -> docs !! i = Some d -> shortSlug d = JS.trim slug ->
  pick (by_slug slug) docs = Some (i, d).
Proof.
  intros Hu Hi Hs. apply pick_Some. split; [exact Hi|]. split.
  - now apply by_slug_true.
  - intros j y Hj Hlt Hy. apply by_slug_true in Hy.
    assert (j = i) by (eapply Hu; eauto; congruence). lia.
Qed.

Lemma pick_by_slug_active docs slug i d :
  unique_slugs docs -> docs !! i = Some d -> shortSlug d = JS.trim slug ->
  isActive d = true ->
  pick (by_slug_active slug) docs = Some (i, d).
Proof.
  intros Hu Hi Hs Ha. apply pick_Some. split; [exact Hi|]. split.
  - now apply by_slug_active_true.
  - intros j y Hj Hlt Hy. apply by_slug_active_true in Hy as [Hy _].
    assert (j = i) by (eapply Hu; eauto; congruence). lia.
Qed.

Lemma pick_no_active docs slug :
  (forall d, d ∈ docs -> shortSlug d = JS.trim slug -> isActive d = false) ->
  pick (by_slug_active slug) docs = None.
Proof.
  intros Hnone. apply pick_None. intros d Hd.
  destruct (by_slug_active slug d) eqn:E; [|reflexivity].
  apply by_slug_active_true in E as [Hs Ha].
  rewrite (Hnone d Hd Hs) in Ha. discriminate.
Qed.


Lemma alter_at {A} (f : A -> A) (l : list A) i x :
  l !! i = Some x -> alter f i l = <[i := f x]> l.
Proof.
  revert i. induction l as [|y l IH]; intros [|i] Hi; simplify_eq/=; try reflexivity.
  f_equal. now apply IH.
Qed.

(** Saving a document that is in the collection: the update of the path
    when it was modified, the existence check otherwise. *)
Lemma save_path_found i modified assign w d :
  db w !! i = Some d ->
  save_path i modified assign w =
    (true,
     {| db := if modified then <[i := assign d]> (db w) else db w;
        oplog := oplog w ++ [if modified then OpUpdate else OpFindOne];
        drawn := drawn w |}).
Proof.
  intros Hi. unfold save_path, storage. rewrite Hi.
  destruct modified; [|reflexivity]. now rewrite (alter_at _ _ _ _ Hi).
Qed.

Lemma set_visits_same d : set_visits (visits d) d = d.
Proof. now destruct d. Qed.

Lemma set_isActive_same d : isActive d = false -> set_isActive false d = d.
Proof. intros Ha. destruct d. simpl in *. now subst. Qed.

(** ** Redirect *)

Lemma redirect_hit slug w i d :
  pick (by_slug_active slug) (db w) = Some (i, d) ->
  redirect slug w =
    (Redirect 301 (originalUrl d),
     {| db := <[i := set_visits (JS.plus (visits d) 1) d]> (db w);
        oplog := oplog w ++
          [OpFindOne; if JS.plus (visits d) 1 =? visits d then OpFindOne else OpUpdate];
        drawn := drawn w |}).
Proof.
  intros Hp. unfold redirect, bind at 1. unfold findOne, storage. rewrite Hp.
  apply pick_Some in Hp as (Hi & _ & _). cbv zeta. unfold bind.
  rewrite (save_path_found i _ _ _ d) by exact Hi. cbn [db oplog drawn]. unfold ret.
  rewrite <- app_assoc. cbn [app].
  destruct (Z.eqb_spec (JS.plus (visits d) 1) (visits d)) as [Heq|Hne]; cbn [negb].
  - rewrite Heq, set_visits_same, (list_insert_id _ _ _ Hi). reflexivity.
  - reflexivity.
Qed.

(** Below 2^53 the redirect adds 1 to the count and writes it. *)
Lemma redirect_hit_exact slug w i d :
  pick (by_slug_active slug) (db w) = Some (i, d) -> Z.abs (visits d) < 2 ^ 53 ->
  redirect slug w =
    (Redirect 301 (originalUrl d),
     {| db := <[i := set_visits (visits d + 1) d]> (db w);
        oplog := oplog w ++ [OpFindOne; OpUpdate];
        drawn := drawn w |}).
Proof.
  intros Hp Hv. rewrite (redirect_hit slug w i d Hp), plus_one by lia.
  now replace (visits d + 1 =? visits d) with false by (symmetry; apply Z.eqb_neq; lia).
Qed.

Lemma redirect_miss slug w :
  pick (by_slug_active slug) (db w) = None ->
  redirect slug w =
    (ShortUrlNotFound,
     {| db := db w; oplog := oplog w ++ [OpFindOne]; drawn := drawn w |}).
Proof.
  intros Hp. unfold redirect, bind, findOne, storage. simpl. now rewrite Hp.
Qed.


Lemma unique_one d : unique_slugs [d].
Proof.
  intros [|i] [|j] d1 d2 H1 H2 _; simplify_eq/=; reflexivity.
Qed.



(** ** The slug validator *)

Lemma anchored_repeat_spec cls s : forall lo hi,
  anchored_repeat cls lo hi s = true <->
  (lo <= String.length s <= hi)%nat /\ JS.chars_all cls s = true.
Proof.
  unfold JS.chars_all.
  induction s as [|c s IH]; intros lo hi;
    cbn [anchored_repeat list_ascii_of_string forallb String.length].
  - rewrite Nat.eqb_eq. intuition lia.
  - destruct hi as [|hi].
    + split; [discriminate|]. intros [? _]. lia.
    + rewrite andb_true_iff, IH, andb_true_iff. intuition lia.
Qed.

(** [validateSlug] accepts exactly the strings of 3 to 50 characters of the
    class: the pattern is matched against the whole input. *)
Lemma validateSlug_spec slug :
  validateSlug slug = true <->
  (3 <= String.length slug <= 50)%nat /\ JS.chars_all slug_class slug = true.
Proof. apply anchored_repeat_spec. Qed.

Lemma truthy_Some s : s <> "" -> JS.truthy (Some s) = true.
Proof.
  intros Hs. simpl. apply negb_true_iff. now apply String.eqb_neq.
Qed.

(** ** Creation with a custom slug *)

Section CustomSlug.
Context `{URL.AuthorityParser}.

(** C2 (amended). A creation request whose custom slug is a non-empty
    string that does not match the pattern fails with status 400 without
    any storage operation, random draw or change of the collection; when
    the URL of the request is present and valid the failure is
    InvalidSlugFormat (a missing or malformed URL is reported first). *)
Theorem invalid_slug_rejected (m : method) (e : env) (req : create_request)
    (s : string) (w : world) :
  q_slug req = Some s -> s <> "" -> validateSlug s = false ->
  snd (create m e req w) = w /\
  status_of (fst (create m e req w)) = 400%nat /\
  (forall u, q_url req = Some u -> validateUrl u = true ->
     fst (create m e req w) = InvalidSlugFormat).
Proof.
  intros Hslug Hne Hbad.
  assert (Hres : resolve_slug e (q_slug req) w = (inl InvalidSlugFormat, w)).
  { unfold resolve_slug. rewrite Hslug, truthy_Some by exact Hne.
    simpl. now rewrite Hbad. }
  unfold create, bind.
  destruct (JS.truthy (q_url req)) eqn:Hurl; simpl.
  - destruct (validateUrl (JS.or_empty (q_url req))) eqn:Hvalid; simpl.
    + rewrite Hres. simpl. split; [reflexivity|]. split; [reflexivity|]. reflexivity.
    + split; [reflexivity|]. split; [reflexivity|].
      intros u Hu Hv. rewrite Hu in Hvalid. simpl in Hvalid. congruence.
  - split; [reflexivity|]. split; [reflexivity|].
    intros u Hu Hv. rewrite Hu in Hurl. simpl in Hurl.
    apply negb_false_iff, String.eqb_eq in Hurl. subst u.
    unfold validateUrl in Hv. simpl in Hv. discriminate.
Qed.

End CustomSlug.

Lemma invalid_slug_rejected_example :
  snd (create GET Sample.an_env
         (Sample.a_request (Some "https://example.com") (Some "has space"))
         Sample.one_link) = Sample.one_link /\
  fst (create GET Sample.an_env
         (Sample.a_request (Some "https://example.com") (Some "has space"))
         Sample.one_link) = InvalidSlugFormat.
Proof.
  destruct (invalid_slug_rejected GET Sample.an_env
              (Sample.a_request (Some "https://example.com") (Some "has space"))
              "has space" Sample.one_link eq_refl) as (Hw & _ & Hr).
  - discriminate.
  - reflexivity.
  - split; [exact Hw|]. now apply (Hr "https://example.com").
Defined.

(** C2 fails for the empty string: it does not match the pattern, yet the
    request is served as one without a custom slug: a slug is generated
    (one [findOne], one insert) and a document is stored. *)
Lemma empty_slug_is_generated :
  validateSlug "" = false /\
  create GET Sample.an_env (Sample.a_request (Some "https://example.com") (Some ""))
    Sample.empty =
  (created GET Sample.an_env "https://example.com" "usean" "" "" 1000,
   {| db := [new_Url 1000 "https://example.com" "usean" "" ""];
      oplog := [OpFindOne; OpInsert];
      drawn := 1 |}).
Proof. split; reflexivity. Qed.

(** ** The URL validator *)






Section Validator.
Context `{URL.AuthorityParser}.



End Validator.


(** The acceptance of [mailto:x] does not depend on the authority parser. *)
Lemma mailto_accepted_by_any_parser `{URL.AuthorityParser} :
  validateUrl "mailto:x" = true /\
  URL.parse "mailto:x" = Some {| URL.scheme := "mailto"; URL.host := None |}.
Proof. unfold validateUrl, URL.parse. simpl. split; reflexivity. Qed.


(** ** The slug generator *)

Lemma alphabet_in_class b : slug_class (alphabet_at b) = true.
Proof.
  unfold alphabet_at.
  assert (Hn : (Z.to_nat (Z.land b 63) < 64)%nat).
  { assert (0 <= Z.land b 63 < 64).
    { change 63 with (Z.ones 6). rewrite Z.land_ones by lia.
      apply Z.mod_pos_bound. reflexivity. }
    lia. }
  revert Hn. generalize (Z.to_nat (Z.land b 63)). intros n Hn.
  do 64 (destruct n as [|n]; [reflexivity|]). lia.
Qed.

Lemma nanoid_from_length pool i size : String.length (nanoid_from pool i size) = size.
Proof.
  revert i. induction size as [|n IH]; intros i; simpl; [reflexivity|].
  now rewrite IH.
Qed.

Lemma nanoid_from_class pool i size :
  JS.chars_all slug_class (nanoid_from pool i size) = true.
Proof.
  unfold JS.chars_all. revert i.
  induction size as [|n IH]; intros i; simpl; [reflexivity|].
  now rewrite alphabet_in_class, IH.
Qed.

Lemma slug_length_range d : (5 <= slug_length d <= 8)%nat.
Proof.
  unfold slug_length.
  assert (Hm : 0 <= random d mod 2 ^ 53 < 2 ^ 53) by (apply Z.mod_pos_bound; lia).
  assert (Hq : 0 <= random d mod 2 ^ 53 * (8 - 5 + 1) / 2 ^ 53 < 4).
  { split.
    - apply Z.div_pos; lia.
    - apply Z.div_lt_upper_bound; lia. }
  lia.
Qed.

(** The generator yields 5 to 8 characters of the URL-safe alphabet,
    whatever the random source. *)
Lemma slug_of_draw_spec d :
  (5 <= String.length (slug_of_draw d) <= 8)%nat /\
  JS.chars_all slug_class (slug_of_draw d) = true.
Proof.
  unfold slug_of_draw, nanoid. rewrite nanoid_from_length.
  split; [apply slug_length_range | apply nanoid_from_class].
Qed.

(** A generated slug would also pass the validator of custom slugs. *)
Lemma slug_of_draw_valid d : validateSlug (slug_of_draw d) = true.
Proof.
  apply validateSlug_spec. destruct (slug_of_draw_spec d) as [Hl Hc].
  split; [lia | exact Hc].
Qed.

(** ** Trimming *)

Lemma class_not_space c : slug_class c = true -> JS.is_space c = false.
Proof.
  destruct c as [b0 b1 b2 b3 b4 b5 b6 b7].
  destruct b0, b1, b2, b3, b4, b5, b6, b7; intros Hc; try reflexivity;
    vm_compute in Hc; discriminate Hc.
Qed.

Lemma alpha_not_space c : JS.is_alpha c = true -> JS.is_space c = false.
Proof.
  destruct c as [b0 b1 b2 b3 b4 b5 b6 b7].
  destruct b0, b1, b2, b3, b4, b5, b6, b7; intros Hc; try reflexivity;
    vm_compute in Hc; discriminate Hc.
Qed.

Lemma drop_trailing_none p s :
  JS.chars_all (fun c => negb (p c)) s = true -> JS.drop_trailing p s = s.
Proof.
  unfold JS.chars_all.
  induction s as [|c s IH]; simpl; [reflexivity|].
  rewrite andb_true_iff, negb_true_iff. intros [Hc Hs].
  rewrite (IH Hs), Hc. now destruct s.
Qed.

Lemma drop_leading_none p s :
  JS.chars_all (fun c => negb (p c)) s = true -> JS.drop_leading p s = s.
Proof.
  unfold JS.chars_all. destruct s as [|c s]; simpl; [reflexivity|].
  rewrite andb_true_iff, negb_true_iff. intros [Hc _]. now rewrite Hc.
Qed.

Lemma chars_all_impl (p q : ascii -> bool) s :
  (forall c, p c = true -> q c = true) ->
  JS.chars_all p s = true -> JS.chars_all q s = true.
Proof.
  intros Hpq. unfold JS.chars_all.
  induction (list_ascii_of_string s) as [|c l IH]; simpl; [reflexivity|].
  rewrite !andb_true_iff. intros [Hc Hl]. auto.
Qed.

(** The [trim] setter leaves a string of slug characters as it is. *)
Lemma trim_slug s : JS.chars_all slug_class s = true -> JS.trim s = s.
Proof.
  intros Hs.
  assert (Hn : JS.chars_all (fun c => negb (JS.is_space c)) s = true).
  { revert Hs. apply chars_all_impl. intros c Hc.
    now rewrite (class_not_space c Hc). }
  unfold JS.trim, JS.trim_start.
  rewrite (drop_leading_none _ _ Hn). now apply drop_trailing_none.
Qed.

Lemma chars_any_remove p q s :
  JS.chars_any p (URL.remove q s) = true -> JS.chars_any p s = true.
Proof.
  unfold JS.chars_any. induction s as [|c s IH]; simpl; [discriminate|].
  destruct (q c); simpl.
  - intros Hs. rewrite (IH Hs). apply orb_true_r.
  - rewrite !orb_true_iff. intuition.
Qed.

Lemma chars_any_drop_leading p q s :
  JS.chars_any p (JS.drop_leading q s) = true -> JS.chars_any p s = true.
Proof.
  unfold JS.chars_any. induction s as [|c s IH]; simpl; [discriminate|].
  destruct (q c); simpl; [|tauto].
  intros Hs. rewrite (IH Hs). apply orb_true_r.
Qed.

Lemma chars_any_drop_trailing p q s :
  JS.chars_any p (JS.drop_trailing q s) = true -> JS.chars_any p s = true.
Proof.
  unfold JS.chars_any. induction s as [|c s IH]; simpl; [discriminate|].
  destruct (JS.drop_trailing q s) as [|c' t] eqn:Ht.
  - destruct (q c); simpl; [discriminate|].
    rewrite orb_false_r. intros ->. reflexivity.
  - simpl in *. rewrite orb_true_iff. intros [Hc|Ht']; [now rewrite Hc|].
    rewrite (IH Ht'). apply orb_true_r.
Qed.

Lemma drop_leading_starts p s :
  JS.chars_any (fun c => negb (p c)) s = true ->
  exists c s', JS.drop_leading p s = String c s' /\ p c = false.
Proof.
  unfold JS.chars_any. induction s as [|c s IH]; simpl; [discriminate|].
  destruct (p c) eqn:Hc; simpl; [exact IH|]. intros _. now exists c, s.
Qed.

Lemma drop_trailing_keeps p c s : p c = false -> JS.drop_trailing p (String c s) <> "".
Proof.
  intros Hc. simpl. rewrite Hc. now destruct (JS.drop_trailing p s).
Qed.

Lemma trim_nonempty s :
  JS.chars_any (fun c => negb (JS.is_space c)) s = true -> JS.trim s <> "".
Proof.
  intros Hs. unfold JS.trim, JS.trim_start.
  destruct (drop_leading_starts _ _ Hs) as (c & s' & -> & Hc).
  now apply drop_trailing_keeps.
Qed.

Lemma chars_any_impl (p q : ascii -> bool) s :
  (forall c, p c = true -> q c = true) ->
  JS.chars_any p s = true -> JS.chars_any q s = true.
Proof.
  intros Hpq. unfold JS.chars_any.
  induction (list_ascii_of_string s) as [|c l IH]; simpl; [discriminate|].
  rewrite !orb_true_iff. intros [Hc|Hl]; auto.
Qed.

Lemma scheme_start_has_letter s r :
  URL.scheme_start_state s = Some r -> JS.chars_any JS.is_alpha s = true.
Proof.
  destruct s as [|c s]; simpl; [discriminate|].
  unfold JS.chars_any. simpl.
  destruct (JS.is_alpha c); [reflexivity | discriminate].
Qed.

(** What the validator accepts is not blank: the [required] validator of
    [originalUrl] passes for it. *)
Lemma valid_url_not_blank `{URL.AuthorityParser} u :
  validateUrl u = true -> JS.trim u <> "".
Proof.
  unfold validateUrl, URL.parse.
  destruct (URL.scheme_start_state (URL.preprocess u)) as [r|] eqn:Hs; [|discriminate].
  intros _. apply trim_nonempty.
  apply scheme_start_has_letter in Hs. unfold URL.preprocess in Hs.
  apply chars_any_remove, chars_any_drop_trailing, chars_any_drop_leading in Hs.
  revert Hs. apply chars_any_impl. intros c Hc.
  now rewrite (alpha_not_space c Hc).
Qed.

(** ** The generation loop *)

(** The [trim] of the filter leaves a generated slug as it is. *)
Lemma trim_draw d : JS.trim (slug_of_draw d) = slug_of_draw d.
Proof. apply trim_slug, slug_of_draw_spec. Qed.

Lemma pick_taken slug docs :
  pick (by_slug slug) docs = None <-> taken (JS.trim slug) docs = false.
Proof.
  rewrite pick_None. unfold taken, by_slug. split.
  - intros Hall. apply not_true_is_false. intros He.
    apply existsb_exists in He as (d & Hd & Hs).
    apply list_elem_of_In in Hd. rewrite (Hall d Hd) in Hs. discriminate.
  - intros Hn d Hd. apply not_true_is_false. intros Hs.
    assert (existsb (has_slug (JS.trim slug)) docs = true); [|congruence].
    apply existsb_exists. exists d. split; [now apply list_elem_of_In | exact Hs].
Qed.

(** For a slug that matches the pattern, trimming changes nothing. *)
Lemma pick_taken_valid slug docs :
  JS.trim slug = slug -> (pick (by_slug slug) docs = None <-> taken slug docs = false).
Proof. intros Ht. rewrite pick_taken. now rewrite Ht. Qed.

Lemma generate_unique_step e n w :
  generate_unique e (S n) w =
  let w1 := {| db := db w; oplog := oplog w ++ [OpFindOne]; drawn := S (drawn w) |} in
  match pick (by_slug (slug_of_draw (entropy e (drawn w)))) (db w) with
  | None => (Some (slug_of_draw (entropy e (drawn w))), w1)
  | Some _ => generate_unique e n w1
  end.
Proof.
  cbn [generate_unique]. unfold bind, generateSlug, findOne, storage. cbn [db oplog drawn].
  now destruct (pick (by_slug (slug_of_draw (entropy e (drawn w)))) (db w)).
Qed.

(** The loop makes [k] attempts, at most as many as it is allowed: each is
    one draw and one [findOne], and the collection is not changed.  It
    returns the first candidate that is free, or nothing when all are
    taken. *)
Lemma generate_unique_spec e n : forall w,
  exists k, (k <= n)%nat /\
    snd (generate_unique e n w) =
      {| db := db w; oplog := oplog w ++ replicate k OpFindOne; drawn := drawn w + k |} /\
    (forall j, (j < Nat.pred k)%nat -> taken (candidate e w j) (db w) = true) /\
    match fst (generate_unique e n w) with
    | Some s =>
        (0 < k)%nat /\ s = candidate e w (Nat.pred k) /\ taken s (db w) = false
    | None => k = n /\ forall j, (j < n)%nat -> taken (candidate e w j) (db w) = true
    end.
Proof.
  induction n as [|n IH]; intros w.
  - exists 0%nat. simpl. split; [lia|]. split.
    + destruct w. simpl. now rewrite app_nil_r, Nat.add_0_r.
    + split; [intros; lia|]. split; [reflexivity|intros; lia].
  - rewrite generate_unique_step. cbv zeta.
    destruct (pick (by_slug (slug_of_draw (entropy e (drawn w)))) (db w)) as [[i d]|] eqn:Hp.
    + set (w1 := {| db := db w; oplog := oplog w ++ [OpFindOne]; drawn := S (drawn w) |}).
      destruct (IH w1) as (k & Hk & Hw & Hbefore & Hres).
      assert (Htaken : taken (candidate e w 0) (db w) = true).
      { unfold candidate. rewrite Nat.add_0_r. apply not_false_iff_true.
        intros Hf. apply (pick_taken_valid _ _ (trim_draw _)) in Hf. congruence. }
      assert (Hcand : forall j, candidate e w1 j = candidate e w (S j)).
      { intros j. unfold candidate, w1. simpl. f_equal. f_equal. lia. }
      exists (S k). split; [lia|]. split.
      * rewrite Hw. unfold w1. cbn [db oplog drawn].
        f_equal; [now rewrite <- app_assoc | lia].
      * split.
        -- intros [|j] Hj; [exact Htaken|]. rewrite <- Hcand. apply Hbefore. simpl in *. lia.
        -- destruct (fst (generate_unique e n w1)) as [s|]; cbv beta iota in Hres.
           ++ destruct Hres as (Hpos & -> & Hfree). split; [lia|]. split; [|exact Hfree].
              rewrite Hcand. simpl. f_equal. lia.
           ++ destruct Hres as [-> Hall]. split; [reflexivity|].
              intros [|j] Hj; [exact Htaken|]. rewrite <- Hcand. apply Hall. lia.
    + exists 1%nat. split; [lia|]. split.
      * cbn [snd replicate]. f_equal. lia.
      * split; [simpl; intros; lia|]. simpl. split; [lia|].
        unfold candidate. rewrite Nat.add_0_r. split; [reflexivity|].
        now apply (pick_taken_valid _ _ (trim_draw _)).
Qed.

Lemma taken_false slug docs d :
  taken slug docs = false -> d ∈ docs -> has_slug slug d = false.
Proof.
  intros Ht Hd. apply not_true_is_false. intros Hs.
  assert (taken slug docs = true); [|congruence].
  apply existsb_exists. exists d. split; [now apply list_elem_of_In | exact Hs].
Qed.

(** A document appended under a free slug is the one a query by that slug
    finds. *)
Lemma pick_appended docs d slug :
  JS.trim slug = shortSlug d -> taken (shortSlug d) docs = false -> isActive d = true ->
  pick (by_slug_active slug) (docs ++ [d]) = Some (length docs, d).
Proof.
  intros Hs Hfree Ha. apply pick_Some. split; [|split].
  - rewrite lookup_app_r, Nat.sub_diag by lia. reflexivity.
  - now apply by_slug_active_true.
  - intros j y Hj Hlt Hy. rewrite lookup_app_l in Hj by exact Hlt.
    apply by_slug_active_true in Hy as [Hy _]. rewrite Hs in Hy.
    apply has_slug_true in Hy.
    rewrite (taken_false _ docs y Hfree) in Hy; [discriminate|].
    apply list_elem_of_lookup. eauto.
Qed.

Lemma save_new_ok d w :
  validates d = true -> taken (shortSlug d) (db w) = false ->
  save_new d w =
    (None, {| db := db w ++ [d]; oplog := oplog w ++ [OpInsert]; drawn := drawn w |}).
Proof.
  intros Hv Hfree. unfold save_new, storage, insert_doc. rewrite Hv.
  fold (taken (shortSlug d) (db w)). now rewrite Hfree.
Qed.

(** ** Creation with a generated slug *)

Section Generated.
Context `{URL.AuthorityParser}.

Lemma valid_url_truthy u : validateUrl u = true -> JS.truthy (Some u) = true.
Proof.
  intros Hv. apply truthy_Some. intros ->. discriminate Hv.
Qed.

Lemma create_without_slug m e req w u :
  q_url req = Some u -> validateUrl u = true -> JS.truthy (q_slug req) = false ->
  create m e req w =
    match fst (generate_unique e 5 w) with
    | None => (GenerationExhausted, snd (generate_unique e 5 w))
    | Some s =>
        (created m e u s (JS.or_empty (q_title req)) (JS.or_empty (q_desc req)) (now e),
         {| db := db w ++ [new_Url (now e) u s (JS.or_empty (q_title req))
                             (JS.or_empty (q_desc req))];
            oplog := oplog (snd (generate_unique e 5 w)) ++ [OpInsert];
            drawn := drawn (snd (generate_unique e 5 w)) |})
    end.
Proof.
  intros Hu Hv Hs.
  destruct (generate_unique_spec e 5 w) as (k & Hk & Hw & _ & Hres).
  unfold create. rewrite Hu, (valid_url_truthy u Hv).
  cbn [negb JS.or_empty]. rewrite Hv. cbn [negb].
  unfold resolve_slug. rewrite Hs. unfold bind at 1 2.
  destruct (generate_unique e 5 w) as [[s|] w'] eqn:Hg; cbn [fst snd] in *; [|reflexivity].
  destruct Hres as (Hpos & Hcand & Hfree).
  assert (Hclass : JS.chars_all slug_class s = true).
  { rewrite Hcand. apply slug_of_draw_spec. }
  assert (Hlen : (5 <= String.length s)%nat).
  { rewrite Hcand. apply slug_of_draw_spec. }
  unfold ret at 1. unfold bind.
  rewrite save_new_ok.
  - subst w'. reflexivity.
  - unfold validates, new_Url. cbn [originalUrl shortSlug].
    rewrite (trim_slug s Hclass).
    apply andb_true_iff. split; apply negb_true_iff, String.eqb_neq.
    + now apply valid_url_not_blank.
    + intros ->. simpl in Hlen. lia.
  - unfold new_Url. cbn [shortSlug]. rewrite (trim_slug s Hclass).
    subst w'. exact Hfree.
Qed.

(** C4. A creation request with a valid URL and no custom slug makes
    between 1 and 5 attempts, each one draw of the generator and one
    existence check, and stops at the first candidate that is free.  It
    fails with GenerationExhausted exactly when all five candidates are
    taken, and then the collection is unchanged.  Otherwise the first free
    candidate becomes the slug of the one document appended: it has 5 to 8
    characters of the class [[A-Za-z0-9_-]], and a redirect for it on the
    resulting state answers 301 with the stored URL. *)
Theorem generated_slug_creation (m : method) (e : env) (req : create_request)
    (w : world) (u : string) :
  q_url req = Some u -> validateUrl u = true -> JS.truthy (q_slug req) = false ->
  exists k, (1 <= k <= 5)%nat /\
    drawn (snd (create m e req w)) = (drawn w + k)%nat /\
    (forall j, (j < Nat.pred k)%nat -> taken (candidate e w j) (db w) = true) /\
    ((k = 5%nat /\ taken (candidate e w 4) (db w) = true /\
      fst (create m e req w) = GenerationExhausted /\
      db (snd (create m e req w)) = db w /\
      oplog (snd (create m e req w)) = oplog w ++ replicate 5 OpFindOne)
     \/
     (exists s doc,
        s = candidate e w (Nat.pred k) /\ taken s (db w) = false /\
        fst (create m e req w) =
          created m e u s (JS.or_empty (q_title req)) (JS.or_empty (q_desc req)) (now e) /\
        db (snd (create m e req w)) = db w ++ [doc] /\
        oplog (snd (create m e req w)) = oplog w ++ replicate k OpFindOne ++ [OpInsert] /\
        shortSlug doc = s /\ originalUrl doc = JS.trim u /\
        (5 <= String.length s <= 8)%nat /\
        JS.chars_all slug_class s = true /\
        fst (redirect s (snd (create m e req w))) = Redirect 301 (originalUrl doc))) /\
    (fst (create m e req w) = GenerationExhausted <->
     forall j, (j < 5)%nat -> taken (candidate e w j) (db w) = true).
Proof.
  intros Hu Hv Hs. rewrite (create_without_slug m e req w u Hu Hv Hs).
  destruct (generate_unique_spec e 5 w) as (k & Hk & Hw & Hbefore & Hres).
  destruct (generate_unique e 5 w) as [[s|] w'] eqn:Hg; cbn [fst snd] in *; subst w'.
  - destruct Hres as (Hpos & Hcand & Hfree).
    destruct (slug_of_draw_spec (entropy e (drawn w + Nat.pred k))) as [Hlen Hclass].
    fold (candidate e w (Nat.pred k)) in Hlen, Hclass. rewrite <- Hcand in Hlen, Hclass.
    exists k. split; [lia|]. split; [reflexivity|]. split; [exact Hbefore|]. split.
    + right.
      exists s, (new_Url (now e) u s (JS.or_empty (q_title req)) (JS.or_empty (q_desc req))).
      assert (Hslug : JS.trim s = s) by now apply trim_slug.
      split; [exact Hcand|]. split; [exact Hfree|]. split; [reflexivity|].
      split; [reflexivity|]. cbn [oplog].
      split; [now rewrite <- app_assoc|].
      split; [exact Hslug|]. split; [reflexivity|].
      split; [exact Hlen|]. split; [exact Hclass|].
      set (doc := new_Url _ _ _ _ _).
      rewrite (redirect_hit s _ (length (db w)) doc); [reflexivity|].
      cbn [db]. apply pick_appended; [|unfold doc; cbn [shortSlug new_Url]|reflexivity].
      * unfold doc. cbn [shortSlug new_Url]. now rewrite Hslug.
      * now rewrite Hslug.
    + split.
      * intros Hex. destruct m; discriminate Hex.
      * intros Hall. specialize (Hall (Nat.pred k)). rewrite <- Hcand, Hfree in Hall.
        discriminate Hall. lia.
  - destruct Hres as [-> Hall]. exists 5%nat. split; [lia|]. split; [reflexivity|].
    split; [exact Hbefore|]. split.
    + left. split; [reflexivity|]. split; [apply Hall; lia|]. repeat split.
    + split; [intros _; exact Hall | reflexivity].
Qed.

End Generated.

Lemma generated_slug_creation_example :
  fst (create GET Sample.an_env (Sample.a_request (Some "https://example.com") None)
         Sample.one_link) =
    created GET Sample.an_env "https://example.com" "usean" "" "" 1000 /\
  drawn (snd (create GET Sample.an_env (Sample.a_request (Some "https://example.com") None)
                Sample.one_link)) = 1%nat /\
  exists doc,
    db (snd (create GET Sample.an_env (Sample.a_request (Some "https://example.com") None)
               Sample.one_link)) = [Sample.my_link; doc] /\
    shortSlug doc = "usean".
Proof.
  destruct (generated_slug_creation (H := URL.reference_authority) GET Sample.an_env
              (Sample.a_request (Some "https://example.com") None)
              Sample.one_link "https://example.com" eq_refl eq_refl eq_refl)
    as (k & Hk & Hd & Hbefore & Hcases & _).
  assert (Hfirst : k = 1%nat).
  { destruct k as [|[|k]]; [lia | reflexivity |].
    specialize (Hbefore 0%nat ltac:(simpl; lia)). discriminate Hbefore. }
  subst k. destruct Hcases as [(Hfive & _)|(s & doc & -> & _ & Hr & Hdb & _ & Hs & _)];
    [discriminate Hfive|].
  split; [exact Hr|]. split; [exact Hd|]. exists doc. split; [exact Hdb | exact Hs].
Defined.

(** Five collisions in a row end the request. *)
Example generation_exhausted :
  create POST Sample.stuck (Sample.a_request (Some "https://example.com") None)
    {| db := [Sample.usean]; oplog := []; drawn := 0 |} =
  (GenerationExhausted,
   {| db := [Sample.usean];
      oplog := [OpFindOne; OpFindOne; OpFindOne; OpFindOne; OpFindOne];
      drawn := 5 |}).
Proof. reflexivity. Qed.

(** ** Soft delete *)

Lemma delete_hit e s w i d :
  s <> "" -> pick (by_slug s) (db w) = Some (i, d) ->
  delete e (Some s) w =
    (Json 200 (Deleted "URL deleted successfully"
       {| d_slug := s; d_originalUrl := originalUrl d; d_deletedAt := now e |}),
     {| db := <[i := set_isActive false d]> (db w);
        oplog := oplog w ++ [OpFindOne; if isActive d then OpUpdate else OpFindOne];
        drawn := drawn w |}).
Proof.
  intros Hs Hp. unfold delete. rewrite (truthy_Some s Hs). cbn [negb JS.or_empty].
  unfold bind at 1. unfold findOne, storage. rewrite Hp.
  apply pick_Some in Hp as (Hi & _ & _). unfold bind.
  rewrite (save_path_found i _ _ _ d) by exact Hi. cbn [db oplog drawn]. unfold ret.
  rewrite <- app_assoc. cbn [app].
  destruct (isActive d) eqn:Ha; cbn [Bool.eqb negb]; [reflexivity|].
  rewrite (set_isActive_same d Ha), (list_insert_id _ _ _ Hi). reflexivity.
Qed.

Lemma delete_miss e s w :
  s <> "" -> pick (by_slug s) (db w) = None ->
  delete e (Some s) w =
    (UrlNotFound, {| db := db w; oplog := oplog w ++ [OpFindOne]; drawn := drawn w |}).
Proof.
  intros Hs Hp. unfold delete. rewrite (truthy_Some s Hs). cbn [negb JS.or_empty].
  unfold bind, findOne, storage. now rewrite Hp.
Qed.

Lemma stats_hit e s w i d :
  pick (by_slug s) (db w) = Some (i, d) ->
  stats e s w =
    (Json 200 (Stats
       {| s_originalUrl := originalUrl d;
          s_shortSlug := shortSlug d;
          s_shortUrl := interpolate (APP_DOMAIN e) +:+ "/r/" +:+ shortSlug d;
          s_title := title d;
          s_description := description d;
          s_visits := visits d;
          s_isActive := isActive d;
          s_createdAt := createdAt d;
          s_lastAccessed := if visits d >? 0 then Some (now e) else None |}),
     {| db := db w; oplog := oplog w ++ [OpFindOne]; drawn := drawn w |}).
Proof.
  intros Hp. unfold stats, bind, findOne, storage. now rewrite Hp.
Qed.

Lemma stats_miss e s w :
  pick (by_slug s) (db w) = None ->
  stats e s w =
    (UrlNotFound, {| db := db w; oplog := oplog w ++ [OpFindOne]; drawn := drawn w |}).
Proof.
  intros Hp. unfold stats, bind, findOne, storage. now rewrite Hp.
Qed.

(** Replacing a document by one of the same slug keeps the index unique. *)
Lemma unique_slugs_insert docs i d d' :
  unique_slugs docs -> docs !! i = Some d -> shortSlug d' = shortSlug d ->
  unique_slugs (<[i := d']> docs).
Proof.
  intros Hu Hi Hs a b x y Ha Hb Hxy.
  assert (Hlook : forall k z, <[i := d']> docs !! k = Some z ->
            exists z0, docs !! k = Some z0 /\ shortSlug z0 = shortSlug z).
  { intros k z Hk. destruct (decide (i = k)) as [->|Hne].
    - rewrite list_lookup_insert_eq in Hk by (eapply lookup_lt_Some; eauto).
      injection Hk as <-. eauto.
    - rewrite list_lookup_insert_ne in Hk by exact Hne. eauto. }
  destruct (Hlook a x Ha) as (x0 & Hx0 & Hsx).
  destruct (Hlook b y Hb) as (y0 & Hy0 & Hsy).
  eapply Hu; eauto. congruence.
Qed.




(** ** Invariants of a document across requests *)










(** What each handler does to the collection. *)

Lemma redirect_effect slug w :
  db (snd (redirect slug w)) = db w \/
  exists i d, db w !! i = Some d /\
    db (snd (redirect slug w)) = <[i := set_visits (JS.plus (visits d) 1) d]> (db w).
Proof.
  destruct (pick (by_slug_active slug) (db w)) as [[i d]|] eqn:Hp.
  - right. exists i, d. rewrite (redirect_hit slug w i d Hp).
    apply pick_Some in Hp as (Hi & _). now split.
  - left. now rewrite (redirect_miss slug w Hp).
Qed.

Lemma delete_effect e slug w :
  db (snd (delete e slug w)) = db w \/
  exists i d, db w !! i = Some d /\
    db (snd (delete e slug w)) = <[i := set_isActive false d]> (db w).
Proof.
  destruct slug as [s|]; [|now left].
  destruct (String.eqb_spec s "") as [->|Hs]; [now left|].
  destruct (pick (by_slug s) (db w)) as [[i d]|] eqn:Hp.
  - right. exists i, d. rewrite (delete_hit e s w i d Hs Hp).
    apply pick_Some in Hp as (Hi & _). now split.
  - left. now rewrite (delete_miss e s w Hs Hp).
Qed.

Lemma stats_effect e slug w : db (snd (stats e slug w)) = db w.
Proof.
  destruct (pick (by_slug slug) (db w)) as [[i d]|] eqn:Hp.
  - now rewrite (stats_hit e slug w i d Hp).
  - now rewrite (stats_miss e slug w Hp).
Qed.

Lemma resolve_slug_effect e slug w : db (snd (resolve_slug e slug w)) = db w.
Proof.
  unfold resolve_slug. destruct (JS.truthy slug).
  - destruct (negb (validateSlug (JS.or_empty slug))); [reflexivity|].
    unfold bind, findOne, storage. cbn [db].
    now destruct (pick (by_slug (JS.or_empty slug)) (db w)).
  - unfold bind. destruct (generate_unique_spec e 5 w) as (k & _ & Hw & _).
    destruct (generate_unique e 5 w) as [[s|] w']; cbn [snd] in Hw; subst w'; reflexivity.
Qed.


Section Invariants.
Context `{URL.AuthorityParser} `{Regex.Engine} `{Sorter}.


Lemma linksdata_effect e req w : db (snd (linksdata e req w)) = db w.
Proof.
  unfold linksdata. destruct (requireAdmin e (q_adminKey req)); [reflexivity|].
  unfold linksdata_handler, bind, countDocuments, find, aggregate_visits, storage.
  cbn [db].
  destruct (accepted (build_query _ _)); [|reflexivity].
  destruct (sort _ _ _); [|reflexivity].
  destruct (paginate _ _ _); cbn [fmap option_fmap option_map]; [|reflexivity].
  destruct (number_param 1 (q_page req)); [|reflexivity].
  destruct (number_param 100 (q_limit req)); reflexivity.
Qed.







End Invariants.



(** ** The unique index is an invariant *)

Lemma unique_slugs_app docs d :
  unique_slugs docs -> taken (shortSlug d) docs = false -> unique_slugs (docs ++ [d]).
Proof.
  intros Hu Hfree i j x y Hi Hj Hxy.
  assert (Hold : forall k z, (docs ++ [d]) !! k = Some z ->
            docs !! k = Some z \/ (k = length docs /\ z = d)).
  { intros k z Hk. destruct (decide (k < length docs)%nat) as [Hlt|Hge].
    - left. now rewrite lookup_app_l in Hk.
    - right. rewrite lookup_app_r in Hk by lia.
      destruct (k - length docs)%nat eqn:E; simpl in Hk; [|discriminate].
      injection Hk as <-. split; [lia | reflexivity]. }
  assert (Hnot : forall k z, docs !! k = Some z -> shortSlug z <> shortSlug d).
  { intros k z Hk Heq.
    assert (has_slug (shortSlug d) z = false) as Hz.
    { eapply taken_false; eauto. apply list_elem_of_lookup. eauto. }
    apply has_slug_true in Heq. congruence. }
  destruct (Hold i x Hi) as [Hx|[-> ->]], (Hold j y Hj) as [Hy|[-> ->]].
  - eapply Hu; eauto.
  - exfalso. eapply Hnot; eauto.
  - exfalso. eapply Hnot; eauto.
  - reflexivity.
Qed.

Lemma save_new_unique d w :
  unique_slugs (db w) -> unique_slugs (db (snd (save_new d w))).
Proof.
  intros Hu. unfold save_new. destruct (validates d); [|exact Hu].
  unfold storage, insert_doc.
  destruct (existsb (has_slug (shortSlug d)) (db w)) eqn:E; [exact Hu|].
  cbn [snd db]. now apply unique_slugs_app.
Qed.

Section UniqueIndex.
Context `{URL.AuthorityParser} `{Regex.Engine} `{Sorter}.

Lemma create_unique m e req w :
  unique_slugs (db w) -> unique_slugs (db (snd (create m e req w))).
Proof.
  intros Hu. unfold create.
  destruct (negb (JS.truthy (q_url req))); [exact Hu|].
  destruct (negb (validateUrl (JS.or_empty (q_url req)))); [exact Hu|].
  unfold bind. pose proof (resolve_slug_effect e (q_slug req) w) as Hr.
  destruct (resolve_slug e (q_slug req) w) as [[failure|shortSlug] w1];
    cbn [snd] in Hr; [unfold ret; cbn [snd]; now rewrite Hr|].
  set (doc := new_Url _ _ _ _ _).
  assert (Hu1 : unique_slugs (db w1)) by now rewrite Hr.
  pose proof (save_new_unique doc w1 Hu1) as Hsave.
  destruct (save_new doc w1) as [[[]|] w2]; exact Hsave.
Qed.

(** No request can break the uniqueness of [shortSlug]. *)
Lemma perform_unique e op w :
  unique_slugs (db w) -> unique_slugs (db (snd (perform e op w))).
Proof.
  intros Hu. destruct op as [m req|slug|slug|req|slug]; cbn [perform].
  - now apply create_unique.
  - destruct (redirect_effect slug w) as [->|(i & d & Hi & ->)]; [exact Hu|].
    now apply (unique_slugs_insert _ i d).
  - destruct (delete_effect e slug w) as [->|(i & d & Hi & ->)]; [exact Hu|].
    now apply (unique_slugs_insert _ i d).
  - now rewrite linksdata_effect.
  - now rewrite stats_effect.
Qed.

Lemma serve_unique history : forall w,
  unique_slugs (db w) -> unique_slugs (db (snd (serve history w))).
Proof.
  induction history as [|[e op] rest IH]; intros w Hu; [exact Hu|].
  cbn [serve]. unfold bind.
  pose proof (perform_unique e op w Hu) as Hstep.
  destruct (perform e op w) as [r w1]. cbn [snd] in Hstep.
  specialize (IH w1 Hstep). now destruct (serve rest w1) as [rs w2].
Qed.

End UniqueIndex.

Lemma unique_slugs_nil : unique_slugs [].
Proof. intros i j d1 d2 Hi. now rewrite lookup_nil in Hi. Qed.

(** ** Paging *)

Lemma paginate_page {A} (s n : Z) (l : list A) :
  0 <= s -> 1 <= n ->
  paginate (Some s) (Some n) l = Some (take (Z.to_nat n) (drop (Z.to_nat s) l)).
Proof.
  intros Hs Hn. unfold paginate.
  replace (s <? 0) with false by (symmetry; apply Z.ltb_ge; lia).
  replace (n =? 0) with false by (symmetry; apply Z.eqb_neq; lia).
  now rewrite Z.abs_eq by lia.
Qed.

(** A page is a segment of the list. *)
Lemma paginate_segment {A} skip limit (l page : list A) :
  paginate skip limit l = Some page -> exists s n, page = take n (drop s l).
Proof.
  unfold paginate. destruct skip as [s|], limit as [n|]; try discriminate.
  destruct (s <? 0); [discriminate|]. intros [= <-].
  destruct (n =? 0); [|eauto].
  exists (Z.to_nat s), (length l). symmetry. apply take_ge. rewrite length_drop. lia.
Qed.

(** [Math.ceil(total / limit)] is the least number of pages of [limit]
    documents that hold [total] documents. *)
Lemma ceil_div_pages total limit :
  1 <= limit ->
  exists pages, ceil_div total limit = Some pages /\
    (pages - 1) * limit < total <= pages * limit.
Proof.
  intros Hl. unfold ceil_div.
  replace (limit =? 0) with false by (symmetry; apply Z.eqb_neq; lia).
  exists (- (- total / limit)). split; [reflexivity|].
  pose proof (Z.div_mod (- total) limit ltac:(lia)) as Hdm.
  pose proof (Z.mod_pos_bound (- total) limit ltac:(lia)) as Hm.
  nia.
Qed.

(** ** The admin listing *)

Section ListingFacts.
Context `{Regex.Engine} `{Sorter}.

(** What a listing that succeeds is made of. *)
Lemma linksdata_handler_listing req w urls pages stats :
  fst (linksdata_handler req w) = Json 200 (Listing urls pages stats) ->
  let q := build_query (default "true" (q_active req)) (default "" (q_search req)) in
  let total := Z.of_nat (length (selected q (db w))) in
  let activeCount := Z.of_nat (length (selected only_active (db w))) in
  let visited := sum_visits (List.filter isActive (db w)) in
  exists p l sorted page,
    number_param 1 (q_page req) = Some p /\
    number_param 100 (q_limit req) = Some l /\
    accepted q = true /\
    sort (default "createdAt" (q_sort req))
      (String.eqb (default "desc" (q_order req)) "desc") (selected q (db w)) = Some sorted /\
    paginate (JS.finite (JS.times (JS.minus p 1) l)) (Some l) sorted = Some page /\
    urls = map snd page /\
    pages = {| p_page := p; p_limit := l; p_total := total;
               p_totalPages := ceil_div total l |} /\
    stats = {| totalUrls := total;
               activeUrls := activeCount;
               inactiveUrls := total - activeCount;
               totalVisits := visited;
               averageVisits :=
                 if activeCount >? 0 then (visited, activeCount) else (0, 1) |}.
Proof.
  cbv zeta. unfold linksdata_handler, bind, countDocuments, find, aggregate_visits, storage.
  cbn [db oplog drawn].
  destruct (accepted (build_query _ _)) eqn:Hacc; [|discriminate].
  destruct (sort _ _ _) as [sorted|] eqn:Hsort; [|discriminate].
  destruct (number_param 1 (q_page req)) as [p|] eqn:Hp;
    [|now destruct (fmap _ _)].
  destruct (number_param 100 (q_limit req)) as [l|] eqn:Hl;
    [|now destruct (fmap _ _)].
  destruct (paginate _ _ sorted) as [page|] eqn:Hpage; [|discriminate].
  cbn [fmap option_fmap option_map accepted only_active where_search]. unfold ret.
  cbn [fst]. intros [= <- <- <-].
  exists p, l, sorted, page. do 4 (split; [reflexivity|]). split; [exact Hpage|].
  repeat (split; [reflexivity|]). reflexivity.
Qed.

Lemma linksdata_handler_page req w p l :
  number_param 1 (q_page req) = Some p ->
  number_param 100 (q_limit req) = Some l ->
  1 <= p -> 1 <= l -> p * l <= 2 ^ 53 ->
  accepted (build_query (default "true" (q_active req)) (default "" (q_search req))) = true ->
  known_path (default "createdAt" (q_sort req)) = true ->
  let q := build_query (default "true" (q_active req)) (default "" (q_search req)) in
  let total := Z.of_nat (length (selected q (db w))) in
  let activeCount := Z.of_nat (length (selected only_active (db w))) in
  let visited := sum_visits (List.filter isActive (db w)) in
  exists sorted,
    sorted ≡ₚ selected q (db w) /\
    StronglySorted
      (fun a b => in_order (default "createdAt" (q_sort req))
                    (String.eqb (default "desc" (q_order req)) "desc") a b = true) sorted /\
    linksdata_handler req w =
      (Json 200 (Listing
         (map snd (take (Z.to_nat l) (drop (Z.to_nat ((p - 1) * l)) sorted)))
         {| p_page := p; p_limit := l; p_total := total; p_totalPages := ceil_div total l |}
         {| totalUrls := total;
            activeUrls := activeCount;
            inactiveUrls := total - activeCount;
            totalVisits := visited;
            averageVisits := if activeCount >? 0 then (visited, activeCount) else (0, 1) |}),
       {| db := db w;
          oplog := oplog w ++ [OpCount; OpFind; OpCount; OpAggregate];
          drawn := drawn w |}).
Proof.
  intros Hp Hl Hp1 Hl1 Hpl Hacc Hpath. cbv zeta.
  destruct (sort_known (default "createdAt" (q_sort req))
              (String.eqb (default "desc" (q_order req)) "desc")
              (selected (build_query (default "true" (q_active req))
                           (default "" (q_search req))) (db w)) Hpath)
    as (sorted & Hsort & Hperm & Hsorted).
  exists sorted. split; [exact Hperm|]. split; [exact Hsorted|].
  unfold linksdata_handler. rewrite Hp, Hl, (skip_exact p l Hp1 Hl1 Hpl).
  unfold bind, countDocuments, find, aggregate_visits, storage. cbn [db oplog drawn].
  rewrite Hacc. cbn [db oplog drawn]. rewrite Hsort, paginate_page by nia.
  cbn [fmap option_fmap option_map accepted only_active where_search].
  unfold ret. cbn [db oplog drawn]. rewrite <- !app_assoc. reflexivity.
Qed.

End ListingFacts.

Section AdminListing.
Context `{Regex.Engine} `{Sorter}.

Lemma requireAdmin_next e k :
  k <> "" -> ADMIN_KEY e = Some k -> requireAdmin e (Some k) = None.
Proof.
  intros Hk He. unfold requireAdmin. rewrite (truthy_Some k Hk), He.
  cbn [negb differs]. now rewrite String.eqb_refl.
Qed.

(** C8 (amended). A [/linksdata] request whose [adminKey] is absent or empty
    is answered 401; one whose non-empty [adminKey] is not the configured
    secret is answered 403; neither touches the storage.  With the secret,
    for a page number and a limit that are at least 1 and whose product is
    at most 2^53, a query the server accepts and a sort path of the schema,
    the answer is 200 with a page of the selection sorted by the server:
    the documents from offset [(page-1)*limit], at most [limit] of them,
    and [totalPages] is the least number of pages that hold [total]
    documents. *)
Theorem admin_listing (e : env) (req : list_request) (w : world) :
  (JS.truthy (q_adminKey req) = false -> linksdata e req w = (Unauthorized, w)) /\
  (forall k, q_adminKey req = Some k -> k <> "" -> ADMIN_KEY e <> Some k ->
     linksdata e req w = (Forbidden, w)) /\
  (forall k p l,
     q_adminKey req = Some k -> k <> "" -> ADMIN_KEY e = Some k ->
     number_param 1 (q_page req) = Some p ->
     number_param 100 (q_limit req) = Some l ->
     1 <= p -> 1 <= l -> p * l <= 2 ^ 53 ->
     accepted (build_query (default "true" (q_active req)) (default "" (q_search req))) = true ->
     known_path (default "createdAt" (q_sort req)) = true ->
     exists sorted urls pages stats,
       fst (linksdata e req w) = Json 200 (Listing urls pages stats) /\
       db (snd (linksdata e req w)) = db w /\
       sorted ≡ₚ selected (build_query (default "true" (q_active req))
                             (default "" (q_search req))) (db w) /\
       StronglySorted
         (fun a b => in_order (default "createdAt" (q_sort req))
                       (String.eqb (default "desc" (q_order req)) "desc") a b = true)
         sorted /\
       urls = map snd (take (Z.to_nat l) (drop (Z.to_nat ((p - 1) * l)) sorted)) /\
       (length urls <= Z.to_nat l)%nat /\
       p_total pages =
         Z.of_nat (length (selected (build_query (default "true" (q_active req))
                                       (default "" (q_search req))) (db w))) /\
       exists n, p_totalPages pages = Some n /\
         (n - 1) * l < p_total pages <= n * l).
Proof.
  split; [|split].
  - intros Hk. unfold linksdata, requireAdmin. now rewrite Hk.
  - intros k Hq Hk He. unfold linksdata, requireAdmin.
    rewrite Hq, (truthy_Some k Hk). cbn [negb].
    replace (differs (Some k) (ADMIN_KEY e)) with true; [reflexivity|].
    destruct (ADMIN_KEY e) as [a|]; [|reflexivity]. cbn [differs].
    symmetry. apply negb_true_iff, String.eqb_neq. congruence.
  - intros k p l Hq Hk He Hp Hl Hp1 Hl1 Hpl Hacc Hpath.
    unfold linksdata. rewrite Hq, (requireAdmin_next e k Hk He).
    destruct (linksdata_handler_page req w p l Hp Hl Hp1 Hl1 Hpl Hacc Hpath)
      as (sorted & Hperm & Hsorted & ->).
    cbn [fst snd db].
    destruct (ceil_div_pages
                (Z.of_nat (length (selected (build_query (default "true" (q_active req))
                                               (default "" (q_search req))) (db w))))
                l Hl1) as (n & Hn & Hbounds).
    exists sorted. eexists _, _, _. split; [reflexivity|]. split; [reflexivity|].
    split; [exact Hperm|]. split; [exact Hsorted|].
    split; [reflexivity|]. split.
    + rewrite length_map, length_take. lia.
    + cbn [p_total p_totalPages]. split; [reflexivity|]. exists n. now split.
Qed.

End AdminListing.

Lemma admin_listing_example :
  exists urls pages stats,
    fst (linksdata Sample.an_env (Sample.a_listing (Some "secret") None (Some "1"))
           Sample.two_links) = Json 200 (Listing urls pages stats) /\
    urls = [Sample.my_link] /\
    p_totalPages pages = Some 2.
Proof.
  destruct (admin_listing (H := RegexFacts.reference_engine)
              (H0 := SorterFacts.reference_sorter) Sample.an_env
              (Sample.a_listing (Some "secret") None (Some "1")) Sample.two_links)
    as (_ & _ & Hpage).
  destruct (Hpage "secret" 1 1) as (sorted & urls & pages & stats & Hr & _);
    try reflexivity; try discriminate; try lia.
  vm_compute in Hr. injection Hr as <- <- <-.
  eexists _, _, _. split; [reflexivity|]. split; reflexivity.
Defined.

(** C8 fails for an empty [adminKey]: it differs from the configured secret
    and the answer is 401, not 403. *)
Lemma empty_admin_key_is_401 :
  differs (Some "") (ADMIN_KEY Sample.an_env) = true /\
  linksdata Sample.an_env (Sample.a_listing (Some "") None None) Sample.two_links =
    (Json 401 (Failure "Admin key required"), Sample.two_links) /\
  linksdata Sample.an_env (Sample.a_listing (Some "guess") None None) Sample.two_links =
    (Json 403 (Failure "Invalid admin key"), Sample.two_links).
Proof. repeat split. Qed.

(** A limit of 0 is no limit, and the number of pages is then not finite. *)
Example limit_zero_is_no_limit :
  exists stats,
    fst (linksdata Sample.an_env (Sample.a_listing (Some "secret") None (Some "0"))
           Sample.two_links) =
    Json 200 (Listing [Sample.my_link; Sample.local_link]
      {| p_page := 1; p_limit := 0; p_total := 2; p_totalPages := None |} stats).
Proof. eexists. reflexivity. Qed.

(** Beyond 2^53 a page number is rounded to a double, and a numeral beyond
    the doubles is not a finite number. *)
Example parseInt_rounds :
  JS.parseInt "9007199254740993" = Some 9007199254740992 /\
  JS.parseInt " 42abc" = Some 42 /\
  JS.parseInt "0x1F" = Some 31 /\
  JS.parseInt "-7" = Some (-7) /\
  JS.parseInt "abc" = None.
Proof. repeat split. Qed.

(** ** Searching the listing *)

Lemma contains_ci_empty s : Regex.contains_ci "" s = true.
Proof. unfold Regex.contains_ci. now destruct s. Qed.

Lemma imap_pair_lookup (docs : list Url) i d :
  In (i, d) (imap pair docs) -> docs !! i = Some d.
Proof.
  intros Hin. apply list_elem_of_In, elem_of_lookup_imap in Hin as (j & y & Heq & Hj).
  now injection Heq as -> ->.
Qed.

Lemma filter_snd_imap (f : Url -> bool) (docs : list Url) : forall g : nat -> nat,
  map snd (List.filter (fun doc => f (snd doc)) (imap (fun i d => (g i, d)) docs)) =
  List.filter f docs.
Proof.
  induction docs as [|d docs IH]; intros g; [reflexivity|].
  cbn [imap List.filter snd].
  specialize (IH (g ∘ S)). unfold compose in IH.
  destruct (f d); cbn [map snd]; now rewrite <- IH.
Qed.

Lemma selected_by_filter (f : Url -> bool) (docs : list Url) :
  map snd (List.filter (fun doc => f (snd doc)) (imap pair docs)) = List.filter f docs.
Proof. apply (filter_snd_imap f docs id). Qed.

Lemma build_query_true q :
  build_query "true" q =
  {| where_isActive := Some true;
     where_search := if negb (String.eqb q "") then Some q else None |}.
Proof. reflexivity. Qed.

Section Search.
Context `{Regex.Engine} `{Sorter}.

Lemma matches_wanted q d :
  Regex.literal q = true -> ascii_doc d = true ->
  matches (build_query "true" q) d = wanted q d.
Proof.
  intros Hq Hd. unfold ascii_doc in Hd. rewrite !andb_true_iff in Hd.
  destruct Hd as [[[Hu Hs] Ht] Hde].
  rewrite build_query_true. unfold matches, wanted. cbn [where_isActive where_search].
  replace (Bool.eqb (isActive d) true) with (isActive d) by now destruct (isActive d).
  destruct (String.eqb_spec q "") as [->|Hne]; cbn [negb].
  - now rewrite !contains_ci_empty.
  - now rewrite !Regex.literal_search.
Qed.

Lemma accepted_literal q : Regex.literal q = true -> accepted (build_query "true" q) = true.
Proof.
  intros Hq. rewrite build_query_true. unfold accepted. cbn [where_search].
  destruct (negb (String.eqb q "")); [now apply Regex.literal_valid | reflexivity].
Qed.

Lemma selected_wanted q docs :
  Regex.literal q = true -> (forall d, d ∈ docs -> ascii_doc d = true) ->
  selected (build_query "true" q) docs =
  List.filter (fun doc => wanted q (snd doc)) (imap pair docs).
Proof.
  intros Hq Hdocs. unfold selected. apply List.filter_ext_in.
  intros [i d] Hin. cbn [snd]. apply matches_wanted; [exact Hq|].
  apply Hdocs, list_elem_of_lookup. exists i. now apply imap_pair_lookup.
Qed.

(** C7 (amended). With the admin key, [active] absent or ['true'] and a
    search string [q] of ASCII characters none of which is a
    regular-expression metacharacter or NUL, over documents whose text is
    ASCII, for a page number and a limit of at least 1 whose product is at
    most 2^53 and a sort path of the schema, the admin listing selects
    exactly the active documents in which [originalUrl], [shortSlug],
    [title] or [description] contains [q], ignoring case: [total] counts
    them, the documents returned are the page of at most [limit] of them
    in the order of the server's sort, and they are all of them when they
    fit on the first page. *)
Theorem search_listing (e : env) (req : list_request) (w : world)
    (k q : string) (p l : Z) :
  q_adminKey req = Some k -> k <> "" -> ADMIN_KEY e = Some k ->
  q_search req = Some q -> default "true" (q_active req) = "true" ->
  Regex.literal q = true ->
  (forall d, d ∈ db w -> ascii_doc d = true) ->
  number_param 1 (q_page req) = Some p ->
  number_param 100 (q_limit req) = Some l ->
  1 <= p -> 1 <= l -> p * l <= 2 ^ 53 ->
  known_path (default "createdAt" (q_sort req)) = true ->
  exists sorted urls pages stats,
    fst (linksdata e req w) = Json 200 (Listing urls pages stats) /\
    p_total pages = Z.of_nat (length (List.filter (wanted q) (db w))) /\
    map snd sorted ≡ₚ List.filter (wanted q) (db w) /\
    StronglySorted
      (fun a b => in_order (default "createdAt" (q_sort req))
                    (String.eqb (default "desc" (q_order req)) "desc") a b = true)
      sorted /\
    urls = map snd (take (Z.to_nat l) (drop (Z.to_nat ((p - 1) * l)) sorted)) /\
    (forall d, d ∈ urls -> d ∈ db w /\ wanted q d = true) /\
    (p = 1 -> p_total pages <= l -> urls ≡ₚ List.filter (wanted q) (db w)).
Proof.
  intros Hk Hkne He Hq Ha Hlit Hascii Hp Hl Hp1 Hl1 Hpl Hpath.
  assert (Hacc : accepted (build_query (default "true" (q_active req))
                             (default "" (q_search req))) = true).
  { rewrite Ha, Hq. now apply accepted_literal. }
  unfold linksdata. rewrite Hk, (requireAdmin_next e k Hkne He).
  destruct (linksdata_handler_page req w p l Hp Hl Hp1 Hl1 Hpl Hacc Hpath)
    as (sorted & Hperm & Hsorted & ->).
  rewrite Ha, Hq in Hperm. cbn [default] in Hperm.
  rewrite (selected_wanted q (db w) Hlit Hascii) in Hperm.
  rewrite Ha, Hq. cbn [default fst].
  rewrite (selected_wanted q (db w) Hlit Hascii).
  set (chosen := List.filter (fun doc => wanted q (snd doc)) (imap pair (db w))) in *.
  assert (Hchosen : map snd chosen = List.filter (wanted q) (db w))
    by apply selected_by_filter.
  assert (Hall : map snd sorted ≡ₚ List.filter (wanted q) (db w)).
  { rewrite <- Hchosen. now apply Permutation_map. }
  exists sorted. eexists _, _, _. split; [reflexivity|]. cbn [p_total].
  split; [now rewrite <- Hchosen, length_map|].
  split; [exact Hall|]. split; [exact Hsorted|].
  split; [reflexivity|]. split.
  - intros d Hd.
    assert (Hin : d ∈ map snd sorted).
    { apply list_elem_of_fmap in Hd as (doc & -> & Hdoc).
      apply list_elem_of_fmap. exists doc. split; [reflexivity|].
      now apply subseteq_take, subseteq_drop in Hdoc. }
    rewrite Hall in Hin. apply list_elem_of_In, List.filter_In in Hin as [Hdb Hw].
    split; [now apply list_elem_of_In | exact Hw].
  - intros -> Hfit. change ((1 - 1) * l) with 0.
    change (Z.to_nat 0) with 0%nat. rewrite drop_0.
    rewrite take_ge; [exact Hall|].
    apply Permutation_length in Hall. rewrite length_map in Hall.
    rewrite Hall, <- Hchosen, length_map. lia.
Qed.

End Search.

Lemma search_listing_example :
  exists urls pages stats,
    fst (linksdata Sample.an_env (Sample.a_listing (Some "secret") (Some "EXAMPLE") None)
           Sample.two_links) = Json 200 (Listing urls pages stats) /\
    p_total pages = 1 /\
    urls ≡ₚ [Sample.my_link].
Proof.
  destruct (search_listing (H := RegexFacts.reference_engine)
              (H0 := SorterFacts.reference_sorter) Sample.an_env
              (Sample.a_listing (Some "secret") (Some "EXAMPLE") None) Sample.two_links
              "secret" "EXAMPLE" 1 100)
    as (sorted & urls & pages & stats & Hr & Ht & _ & _ & _ & _ & Hall);
    try reflexivity; try discriminate; try lia.
  - intros d Hd. apply list_elem_of_In in Hd.
    destruct Hd as [<-|[<-|[]]]; reflexivity.
  - exists urls, pages, stats. split; [exact Hr|]. split; [exact Ht|].
    apply Hall; [reflexivity|]. rewrite Ht. vm_compute. discriminate.
Defined.

(** C7 fails for a search string with a metacharacter: the dot matches any
    character, so a document is listed although none of its paths contains
    a dot. *)
Lemma dot_search_lists_all :
  wanted "." Sample.local_link = false /\
  exists pages stats,
    fst (linksdata Sample.an_env (Sample.a_listing (Some "secret") (Some ".") None)
           {| db := [Sample.local_link]; oplog := []; drawn := 0 |}) =
    Json 200 (Listing [Sample.local_link] pages stats).
Proof. split; [reflexivity|]. eexists _, _. reflexivity. Qed.

(** ** Redirects one after another, and overlapping *)

(** The handler is its two storage steps run back to back. *)
Lemma redirect_as_steps slug w :
  interleave [0; 0]%nat [Arrived slug] w =
  ([Answered (fst (redirect slug w))], snd (redirect slug w)).
Proof.
  cbn [interleave lookup list_lookup]. unfold bind, advance at 1.
  unfold redirect, bind, findOne, storage.
  destruct (pick (by_slug_active slug) (db w)) as [[i d]|]; cbn [ret fst snd];
    [|reflexivity].
  cbn [insert list_insert lookup list_lookup advance]. unfold bind.
  now destruct (save_path i _ _ _) as [[] w1].
Qed.

(** The second step writes the count that was loaded, plus one, whatever
    the stored count has become in between. *)
Lemma advance_loaded i d w stale :
  db w !! i = Some stale -> Z.abs (visits d) < 2 ^ 53 ->
  advance (Loaded i d) w =
    (Answered (Redirect 301 (originalUrl d)),
     {| db := <[i := set_visits (visits d + 1) stale]> (db w);
        oplog := oplog w ++ [OpUpdate];
        drawn := drawn w |}).
Proof.
  intros Hi Hv. cbn [advance]. unfold bind.
  rewrite (save_path_found i _ _ _ stale Hi), plus_one by lia.
  now replace (visits d + 1 =? visits d) with false by (symmetry; apply Z.eqb_neq; lia).
Qed.

Lemma serially_hit n : forall slug w i d,
  unique_slugs (db w) -> db w !! i = Some d -> shortSlug d = JS.trim slug ->
  isActive d = true -> 0 <= visits d -> visits d + Z.of_nat n <= 2 ^ 53 ->
  fst (serially n slug w) = replicate n (Redirect 301 (originalUrl d)) /\
  db (snd (serially n slug w)) = <[i := set_visits (visits d + Z.of_nat n) d]> (db w).
Proof.
  induction n as [|n IH]; intros slug w i d Hu Hi Hs Ha Hv Hn.
  - cbn [serially replicate]. unfold ret. cbn [fst snd]. split; [reflexivity|].
    rewrite Z.add_0_r, set_visits_same. symmetry. now apply list_insert_id.
  - cbn [serially replicate]. unfold bind.
    rewrite (redirect_hit_exact slug w i d) by (try apply pick_by_slug_active; auto; lia).
    set (d1 := set_visits (visits d + 1) d).
    set (w1 := {| db := <[i := d1]> (db w) |}).
    destruct (IH slug w1 i d1) as [Hr Hd].
    + apply (unique_slugs_insert _ i d); auto.
    + apply list_lookup_insert_eq. eapply lookup_lt_Some; eauto.
    + exact Hs.
    + exact Ha.
    + cbn [d1 visits set_visits]. lia.
    + cbn [d1 visits set_visits]. lia.
    + destruct (serially n slug w1) as [rs w2]. unfold ret. cbn [fst snd] in *.
      split; [now rewrite Hr|].
      rewrite Hd. unfold w1. cbn [db]. rewrite list_insert_insert_eq. f_equal.
      unfold d1, set_visits.
      cbn [visits originalUrl shortSlug title description createdAt isActive].
      f_equal. lia.
Qed.

(** C9 (amended). [n] redirects for an active slug served one after another
    are all answered 301 and leave the document's [visits] exactly [n]
    greater, as long as the count stays within 2^53.  The increment is a
    read-modify-write in the application: the second storage step of a
    redirect writes the count it loaded plus one, whatever the stored count
    is by then. *)
Theorem redirects_counted (n : nat) (slug : string) (w : world) (i : nat) (d : Url) :
  unique_slugs (db w) -> db w !! i = Some d -> shortSlug d = JS.trim slug ->
  isActive d = true -> 0 <= visits d -> visits d + Z.of_nat n <= 2 ^ 53 ->
  fst (serially n slug w) = replicate n (Redirect 301 (originalUrl d)) /\
  db (snd (serially n slug w)) = <[i := set_visits (visits d + Z.of_nat n) d]> (db w) /\
  (forall stale w', visits d < 2 ^ 53 -> db w' !! i = Some stale ->
     db (snd (advance (Loaded i d) w')) = <[i := set_visits (visits d + 1) stale]> (db w')).
Proof.
  intros Hu Hi Hs Ha Hv Hn.
  destruct (serially_hit n slug w i d Hu Hi Hs Ha Hv Hn) as [Hr Hd].
  split; [exact Hr|]. split; [exact Hd|].
  intros stale w' Hlt Hstale. now rewrite (advance_loaded i d w' stale Hstale) by lia.
Qed.

Lemma redirects_counted_example :
  fst (serially 3 "my-link" Sample.one_link) =
    [Redirect 301 "https://example.com"; Redirect 301 "https://example.com";
     Redirect 301 "https://example.com"] /\
  db (snd (serially 3 "my-link" Sample.one_link)) = [set_visits 3 Sample.my_link].
Proof.
  destruct (redirects_counted 3 "my-link" Sample.one_link 0 Sample.my_link
              (unique_one _) eq_refl eq_refl eq_refl ltac:(simpl; lia) ltac:(simpl; lia))
    as (Hr & Hd & _).
  split; [exact Hr | exact Hd].
Defined.

(** C9 fails when two redirects overlap: both load the count 0, both write
    1; the two requests are answered 301 and [visits] is 1, not 2. *)
Lemma overlapping_redirects_lose_a_visit :
  interleave [0; 1; 0; 1]%nat [Arrived "my-link"; Arrived "my-link"] Sample.one_link =
  ([Answered (Redirect 301 "https://example.com");
    Answered (Redirect 301 "https://example.com")],
   {| db := [set_visits 1 Sample.my_link];
      oplog := [OpFindOne; OpFindOne; OpUpdate; OpUpdate];
      drawn := 0 |}).
Proof. reflexivity. Qed.

(** ** Statistics of one slug *)

Section LastAccessed.
Context `{URL.AuthorityParser} `{Regex.Engine} `{Sorter}.

(** C10. For a slug with a document, the statistics answer 200 and
    [lastAccessed] is the time at which the response is built when
    [visits] is positive, and null when it is 0.  No time of a redirect is
    recorded: after a redirect, whenever it was served, [lastAccessed] is
    the time of the statistics request (and the count shown is one more,
    below 2^53). *)
Theorem stats_last_accessed (e : env) (slug : string) (w : world) (i : nat) (d : Url) :
  unique_slugs (db w) -> db w !! i = Some d -> shortSlug d = JS.trim slug ->
  (exists data,
     fst (stats e slug w) = Json 200 (Stats data) /\
     s_visits data = visits d /\
     (0 < visits d -> s_lastAccessed data = Some (now e)) /\
     (visits d = 0 -> s_lastAccessed data = None)) /\
  (isActive d = true -> 0 <= visits d ->
   forall e1, exists data,
     fst (serve [(e1, DoRedirect slug); (e, DoStats slug)] w) =
       [Redirect 301 (originalUrl d); Json 200 (Stats data)] /\
     (visits d < 2 ^ 53 -> s_visits data = visits d + 1) /\
     s_lastAccessed data = Some (now e)).
Proof.
  intros Hu Hi Hs. split.
  - rewrite (stats_hit e slug w i d) by now apply pick_by_slug.
    eexists. split; [reflexivity|]. cbn [s_visits s_lastAccessed].
    split; [reflexivity|]. split.
    + intros Hpos. now replace (visits d >? 0) with true by (symmetry; apply Z.gtb_lt; lia).
    + intros ->. reflexivity.
  - intros Ha Hv e1. cbn [serve perform]. unfold bind.
    rewrite (redirect_hit slug w i d) by now apply pick_by_slug_active.
    set (d1 := set_visits (JS.plus (visits d) 1) d).
    set (w1 := {| db := <[i := d1]> (db w) |}).
    rewrite (stats_hit e slug w1 i d1).
    + unfold ret. cbn [fst]. eexists. split; [reflexivity|].
      cbn [s_visits s_lastAccessed d1 set_visits visits].
      split; [intros Hlt; apply plus_one; lia|].
      pose proof (plus_one_pos (visits d) Hv).
      now replace (JS.plus (visits d) 1 >? 0) with true by (symmetry; apply Z.gtb_lt; lia).
    + apply pick_by_slug.
      * apply (unique_slugs_insert _ i d); auto.
      * apply list_lookup_insert_eq. eapply lookup_lt_Some; eauto.
      * exact Hs.
Qed.

End LastAccessed.

Lemma stats_last_accessed_example :
  exists data,
    fst (serve [(Sample.an_env, DoRedirect "my-link"); (Sample.later, DoStats "my-link")]
           Sample.one_link) =
      [Redirect 301 "https://example.com"; Json 200 (Stats data)] /\
    s_visits data = 1 /\
    s_lastAccessed data = Some 2000.
Proof.
  destruct (stats_last_accessed (H := URL.reference_authority)
              (H0 := RegexFacts.reference_engine) (H1 := SorterFacts.reference_sorter)
              Sample.later "my-link" Sample.one_link 0 Sample.my_link
              (unique_one _) eq_refl eq_refl) as [_ Hafter].
  destruct (Hafter eq_refl ltac:(simpl; lia) Sample.an_env) as (data & Hr & Hv & Hl).
  exists data. split; [exact Hr|]. split; [|exact Hl]. apply Hv. simpl. lia.
Defined.

(** * Further properties of the handlers *)

(** ** Slugs *)

Lemma slug_class_chars c :
  slug_class c = true <->
  JS.is_alnum c = true \/ c = "_"%char \/ c = "-"%char.
Proof.
  destruct c as [b0 b1 b2 b3 b4 b5 b6 b7].
  destruct b0, b1, b2, b3, b4, b5, b6, b7; vm_compute;
    (split; [intros Hc; first [discriminate Hc | now left | now right; left | now right; right]
            | intros [Hc|[Hc|Hc]]; first [reflexivity | discriminate Hc]]).
Qed.

(** X1. [validateSlug] accepts a string exactly when it has 3 to 50
    characters, each a letter, a digit, an underscore or a hyphen: the
    pattern is anchored at both ends, so no such string with anything
    before or after it is accepted. *)
Theorem validateSlug_accepts (slug : string) :
  validateSlug slug = true <->
  (3 <= String.length slug <= 50)%nat /\
  forall c, In c (list_ascii_of_string slug) ->
    JS.is_alnum c = true \/ c = "_"%char \/ c = "-"%char.
Proof.
  rewrite validateSlug_spec. unfold JS.chars_all. rewrite forallb_forall.
  split; intros [Hlen Hall]; (split; [exact Hlen|]); intros c Hc;
    apply slug_class_chars; auto.
Qed.

(** X2. Whatever the random source, the slug [generateSlug] returns would
    pass [validateSlug], is left as it is by the [trim] setter of the
    schema, and consumes exactly one draw without touching the storage. *)
Theorem generateSlug_valid (e : env) (w : world) :
  validateSlug (fst (generateSlug e w)) = true /\
  JS.trim (fst (generateSlug e w)) = fst (generateSlug e w) /\
  (5 <= String.length (fst (generateSlug e w)) <= 8)%nat /\
  snd (generateSlug e w) = {| db := db w; oplog := oplog w; drawn := S (drawn w) |}.
Proof.
  unfold generateSlug. cbn [fst snd].
  destruct (slug_of_draw_spec (entropy e (drawn w))) as [Hlen Hclass].
  split; [apply slug_of_draw_valid|]. split; [now apply trim_slug|].
  split; [exact Hlen | reflexivity].
Qed.

(** ** Creation with a custom slug that is valid *)

Lemma valid_slug_facts s :
  validateSlug s = true -> s <> "" /\ JS.trim s = s.
Proof.
  intros Hv. apply validateSlug_spec in Hv as [Hlen Hclass]. split.
  - intros ->. simpl in Hlen. lia.
  - now apply trim_slug.
Qed.

Section CustomCreation.
Context `{URL.AuthorityParser}.

Lemma create_custom m e req w u s :
  q_url req = Some u -> validateUrl u = true ->
  q_slug req = Some s -> validateSlug s = true ->
  create m e req w =
    if taken s (db w)
    then (SlugTaken, {| db := db w; oplog := oplog w ++ [OpFindOne]; drawn := drawn w |})
    else (created m e u s (JS.or_empty (q_title req)) (JS.or_empty (q_desc req)) (now e),
          {| db := db w ++ [new_Url (now e) u s (JS.or_empty (q_title req))
                              (JS.or_empty (q_desc req))];
             oplog := oplog w ++ [OpFindOne; OpInsert];
             drawn := drawn w |}).
Proof.
  intros Hu Hv Hs Hvs. destruct (valid_slug_facts s Hvs) as [Hne Htrim].
  unfold create. rewrite Hu, (valid_url_truthy u Hv).
  cbn [negb JS.or_empty]. rewrite Hv. cbn [negb].
  unfold resolve_slug. rewrite Hs, (truthy_Some s Hne).
  cbn [JS.or_empty]. rewrite Hvs. cbn [negb].
  unfold bind at 1 2. unfold findOne, storage. cbn [db oplog drawn].
  destruct (taken s (db w)) eqn:Ht.
  - destruct (pick (by_slug s) (db w)) as [[i d]|] eqn:Hp; [reflexivity|].
    apply (pick_taken_valid _ _ Htrim) in Hp. congruence.
  - apply (pick_taken_valid _ _ Htrim) in Ht. rewrite Ht. unfold ret at 1. unfold bind.
    rewrite save_new_ok.
    + cbn [db oplog drawn]. now rewrite <- app_assoc.
    + unfold validates, new_Url. cbn [originalUrl shortSlug]. rewrite Htrim.
      apply andb_true_iff. split; apply negb_true_iff, String.eqb_neq.
      * now apply valid_url_not_blank.
      * exact Hne.
    + unfold new_Url. cbn [shortSlug db]. rewrite Htrim.
      now apply (pick_taken_valid _ _ Htrim).
Qed.

(** The outcomes of a creation request served on its own. *)
Lemma create_cases (m : method) (e : env) (req : create_request) (w : world) :
  (In (fst (create m e req w))
      [MissingURL m; InvalidURL; InvalidSlugFormat; SlugTaken; GenerationExhausted] /\
   db (snd (create m e req w)) = db w) \/
  (exists s,
     fst (create m e req w) =
       created m e (JS.or_empty (q_url req)) s (JS.or_empty (q_title req))
         (JS.or_empty (q_desc req)) (now e) /\
     db (snd (create m e req w)) =
       db w ++ [new_Url (now e) (JS.or_empty (q_url req)) s (JS.or_empty (q_title req))
                  (JS.or_empty (q_desc req))] /\
     validateSlug s = true /\ taken s (db w) = false).
Proof.
  destruct (JS.truthy (q_url req)) eqn:Hut.
  2: { left. unfold create. rewrite Hut. cbn. auto. }
  destruct (validateUrl (JS.or_empty (q_url req))) eqn:Hv.
  2: { left. unfold create. rewrite Hut, Hv. cbn. auto. }
  destruct (q_url req) as [u|] eqn:Hu; [|discriminate Hut]. cbn [JS.or_empty] in *.
  destruct (JS.truthy (q_slug req)) eqn:Hst.
  - destruct (q_slug req) as [s|] eqn:Hs; [|discriminate Hst].
    destruct (validateSlug s) eqn:Hvs.
    + rewrite (create_custom m e req w u s Hu Hv Hs Hvs).
      destruct (taken s (db w)) eqn:Ht.
      * left. cbn. auto 6.
      * right. exists s. cbn [fst snd db]. auto.
    + left. unfold create. rewrite Hu, Hut. cbn [negb JS.or_empty]. rewrite Hv.
      cbn [negb]. unfold resolve_slug. rewrite Hs, Hst. cbn [JS.or_empty].
      rewrite Hvs. cbn. auto 6.
  - rewrite (create_without_slug m e req w u Hu Hv Hst).
    destruct (generate_unique_spec e 5 w) as (k & _ & Hw & _ & Hres).
    destruct (generate_unique e 5 w) as [[s|] w'] eqn:Hg; cbn [fst snd] in *; subst w'.
    + right. exists s. destruct Hres as (_ & -> & Hfree).
      cbn [db]. split; [reflexivity|]. split; [reflexivity|].
      split; [apply slug_of_draw_valid | exact Hfree].
    + left. cbn. auto 7.
Qed.


End CustomCreation.

(** ** What a request does to the collection *)

Lemma lookup_snoc {A} (l : list A) x i y :
  (l ++ [x]) !! i = Some y -> l !! i = Some y \/ (i = length l /\ y = x).
Proof.
  intros Hi. destruct (decide (i < length l)%nat) as [Hlt|Hge].
  - left. now rewrite lookup_app_l in Hi.
  - right. rewrite lookup_app_r in Hi by lia.
    destruct (i - length l)%nat eqn:E; simpl in Hi; [|discriminate].
    injection Hi as <-. split; [lia | reflexivity].
Qed.

Lemma taken_lookup docs i d : docs !! i = Some d -> taken (shortSlug d) docs = true.
Proof.
  intros Hi. unfold taken. apply existsb_exists. exists d. split.
  - apply list_elem_of_In, list_elem_of_lookup. eauto.
  - now apply has_slug_true.
Qed.

Lemma taken_true slug docs :
  taken slug docs = true -> exists i d, docs !! i = Some d /\ shortSlug d = slug.
Proof.
  intros Ht. apply existsb_exists in Ht as (d & Hd & Hs).
  apply list_elem_of_In, list_elem_of_lookup in Hd as [i Hi].
  exists i, d. split; [exact Hi | now apply has_slug_true].
Qed.

Section CollectionSteps.
Context `{URL.AuthorityParser} `{Regex.Engine} `{Sorter}.

(** What a request does to the collection: nothing, one count or state
    written on one document, or one document appended under a free slug
    that matches the pattern. *)
Lemma perform_cases e op w :
  db (snd (perform e op w)) = db w \/
  (exists i d d', db w !! i = Some d /\
     db (snd (perform e op w)) = <[i := d']> (db w) /\ same_link d d') \/
  (exists d, db (snd (perform e op w)) = db w ++ [d] /\
     validateSlug (shortSlug d) = true /\ taken (shortSlug d) (db w) = false).
Proof.
  destruct op as [m req|slug|slug|req|slug]; cbn [perform].
  - destruct (create_cases m e req w) as [[_ Hdb]|(s & _ & Hdb & Hvs & Hfree)].
    + now left.
    + right. right. eexists. split; [exact Hdb|].
      unfold new_Url. cbn [shortSlug].
      destruct (valid_slug_facts s Hvs) as [_ ->]. now split.
  - destruct (redirect_effect slug w) as [Hdb|(i & d & Hi & Hdb)]; [now left|].
    right. left. exists i, d, (set_visits (JS.plus (visits d) 1) d).
    repeat split; assumption.
  - destruct (delete_effect e slug w) as [Hdb|(i & d & Hi & Hdb)]; [now left|].
    right. left. exists i, d, (set_isActive false d). repeat split; assumption.
  - left. apply linksdata_effect.
  - left. apply stats_effect.
Qed.

Lemma perform_same_link e op w i d :
  db w !! i = Some d ->
  exists d', db (snd (perform e op w)) !! i = Some d' /\ same_link d d'.
Proof.
  intros Hi.
  assert (Hrefl : same_link d d) by (unfold same_link; auto).
  destruct (perform_cases e op w)
    as [->|[(j & d0 & d' & Hj & -> & Hs)|(d0 & -> & _)]].
  - eauto.
  - destruct (decide (j = i)) as [->|Hne].
    + exists d'. rewrite list_lookup_insert_eq by (eapply lookup_lt_Some; eauto).
      split; [reflexivity|]. congruence.
    + exists d. now rewrite list_lookup_insert_ne.
  - exists d. split; [|exact Hrefl].
    rewrite lookup_app_l; [exact Hi | eapply lookup_lt_Some; eauto].
Qed.

Lemma serve_same_link history : forall w i d,
  db w !! i = Some d ->
  exists d', db (snd (serve history w)) !! i = Some d' /\ same_link d d'.
Proof.
  induction history as [|[e op] rest IH]; intros w i d Hi.
  - exists d. cbn. unfold same_link. auto.
  - cbn [serve]. unfold bind.
    destruct (perform_same_link e op w i d Hi) as (d1 & Hi1 & Hs1 & Ho1 & Ht1 & Hd1).
    destruct (perform e op w) as [r w1]. cbn [snd] in Hi1.
    destruct (IH w1 i d1 Hi1) as (d2 & Hi2 & Hs2 & Ho2 & Ht2 & Hd2).
    destruct (serve rest w1) as [rs w2]. cbn [snd] in *.
    exists d2. split; [exact Hi2|]. unfold same_link. repeat split; congruence.
Qed.

(** A slug that is held stays held, whatever requests are served. *)
Lemma serve_taken history w slug :
  taken slug (db w) = true -> taken slug (db (snd (serve history w))) = true.
Proof.
  intros Ht. apply taken_true in Ht as (i & d & Hi & Hs).
  destruct (serve_same_link history w i d Hi) as (d' & Hi' & Hs' & _).
  rewrite <- Hs, <- Hs'. now apply (taken_lookup _ i).
Qed.

(** X3. A creation request with a valid URL and a custom slug that matches
    the pattern and is held by no document succeeds after one existence
    check and one insert, without a random draw: the document stored has
    the custom slug and the trimmed URL, title and description, while the
    response echoes them as given.  From then on, whatever requests are
    served in between, a creation request with a valid URL and the same
    custom slug is answered 409 SlugTaken and stores nothing. *)
Theorem custom_slug_creation (m : method) (e : env) (req : create_request)
    (w : world) (u s : string) :
  q_url req = Some u -> validateUrl u = true ->
  q_slug req = Some s -> validateSlug s = true ->
  taken s (db w) = false ->
  create m e req w =
    (created m e u s (JS.or_empty (q_title req)) (JS.or_empty (q_desc req)) (now e),
     {| db := db w ++ [new_Url (now e) u s (JS.or_empty (q_title req))
                         (JS.or_empty (q_desc req))];
        oplog := oplog w ++ [OpFindOne; OpInsert];
        drawn := drawn w |}) /\
  forall history m' e' req' u',
    q_url req' = Some u' -> validateUrl u' = true -> q_slug req' = Some s ->
    fst (create m' e' req' (snd (serve history (snd (create m e req w))))) = SlugTaken /\
    db (snd (create m' e' req' (snd (serve history (snd (create m e req w)))))) =
      db (snd (serve history (snd (create m e req w)))).
Proof.
  intros Hu Hv Hs Hvs Hfree.
  rewrite (create_custom m e req w u s Hu Hv Hs Hvs), Hfree.
  split; [reflexivity|].
  intros history m' e' req' u' Hu' Hv' Hs'. cbn [snd].
  rewrite (create_custom m' e' req' _ u' s Hu' Hv' Hs' Hvs).
  rewrite serve_taken; [split; reflexivity|]. cbn [db].
  unfold taken. rewrite existsb_app. apply orb_true_iff. right.
  unfold new_Url, has_slug. cbn [existsb shortSlug].
  destruct (valid_slug_facts s Hvs) as [_ ->]. now rewrite String.eqb_refl.
Qed.

End CollectionSteps.

Lemma custom_slug_creation_example :
  fst (create GET Sample.an_env
         (Sample.a_request (Some " https://example.com ") (Some "docs"))
         Sample.one_link) =
    created GET Sample.an_env " https://example.com " "docs" "" "" 1000 /\
  db (snd (create GET Sample.an_env
             (Sample.a_request (Some " https://example.com ") (Some "docs"))
             Sample.one_link)) =
    [Sample.my_link; new_Url 1000 "https://example.com" "docs" "" ""] /\
  fst (create POST Sample.later
         (Sample.a_request (Some "https://example.org") (Some "docs"))
         (snd (serve [(Sample.later, DoDelete (Some "docs"));
                      (Sample.later, DoRedirect "docs")]
                 (snd (create GET Sample.an_env
                         (Sample.a_request (Some " https://example.com ") (Some "docs"))
                         Sample.one_link))))) = SlugTaken.
Proof.
  destruct (custom_slug_creation (H := URL.reference_authority)
              (H0 := RegexFacts.reference_engine) (H1 := SorterFacts.reference_sorter)
              GET Sample.an_env
              (Sample.a_request (Some " https://example.com ") (Some "docs"))
              Sample.one_link " https://example.com " "docs"
              eq_refl eq_refl eq_refl eq_refl eq_refl) as [Hc Hlater].
  split; [now rewrite Hc|]. split; [now rewrite Hc|].
  apply (Hlater [(Sample.later, DoDelete (Some "docs")); (Sample.later, DoRedirect "docs")]
           POST Sample.later
           (Sample.a_request (Some "https://example.org") (Some "docs"))
           "https://example.org"); reflexivity.
Defined.

(** ** Creation, redirect, statistics and soft delete composed *)

Lemma pick_appended_by_slug docs d slug :
  JS.trim slug = shortSlug d -> taken (shortSlug d) docs = false ->
  pick (by_slug slug) (docs ++ [d]) = Some (length docs, d).
Proof.
  intros Hs Hfree. apply pick_Some. split; [|split].
  - rewrite lookup_app_r, Nat.sub_diag by lia. reflexivity.
  - now apply by_slug_true.
  - intros j y Hj Hlt Hy. rewrite lookup_app_l in Hj by exact Hlt.
    apply by_slug_true in Hy. rewrite Hs in Hy. apply has_slug_true in Hy.
    rewrite (taken_false _ docs y Hfree) in Hy; [discriminate|].
    apply list_elem_of_lookup. eauto.
Qed.

(** Replacing the document a query finds by one that still matches leaves
    it the document found. *)
Lemma pick_insert f docs i d d' :
  pick f docs = Some (i, d) -> f d' = true -> pick f (<[i := d']> docs) = Some (i, d').
Proof.
  intros Hp Hd'. apply pick_Some in Hp as (Hi & _ & Hbefore).
  apply pick_Some. split; [|split].
  - apply list_lookup_insert_eq. eapply lookup_lt_Some; eauto.
  - exact Hd'.
  - intros j y Hj Hlt. rewrite list_lookup_insert_ne in Hj by lia. eauto.
Qed.

(** A query by a slug that is held finds a document. *)
Lemma pick_held slug docs :
  taken (JS.trim slug) docs = true ->
  exists i d, pick (by_slug slug) docs = Some (i, d) /\ shortSlug d = JS.trim slug.
Proof.
  intros Ht. destruct (pick (by_slug slug) docs) as [[i d]|] eqn:Hp.
  - exists i, d. split; [reflexivity|].
    apply pick_Some in Hp as (_ & Hd & _). now apply by_slug_true.
  - apply pick_taken in Hp. congruence.
Qed.

Section Composition.
Context `{URL.AuthorityParser} `{Regex.Engine} `{Sorter}.

(** X5. After a successful creation under a custom slug, a redirect for the
    slug answers 301 with the trimmed URL (the stored one, not the one
    echoed by the creation response), and the statistics then show the
    trimmed title and description, one visit, the creation time of the
    creation request and the document active. *)
Theorem create_redirect_stats (m : method) (e e1 e2 : env) (req : create_request)
    (w : world) (u s : string) :
  q_url req = Some u -> validateUrl u = true ->
  q_slug req = Some s -> validateSlug s = true ->
  taken s (db w) = false ->
  fst (serve [(e, DoCreate m req); (e1, DoRedirect s); (e2, DoStats s)] w) =
    [created m e u s (JS.or_empty (q_title req)) (JS.or_empty (q_desc req)) (now e);
     Redirect 301 (JS.trim u);
     Json 200 (Stats
       {| s_originalUrl := JS.trim u;
          s_shortSlug := s;
          s_shortUrl := interpolate (APP_DOMAIN e2) +:+ "/r/" +:+ s;
          s_title := JS.trim (JS.or_empty (q_title req));
          s_description := JS.trim (JS.or_empty (q_desc req));
          s_visits := 1;
          s_isActive := true;
          s_createdAt := now e;
          s_lastAccessed := Some (now e2) |})].
Proof.
  intros Hu Hv Hs Hvs Hfree. destruct (valid_slug_facts s Hvs) as [Hne Htrim].
  cbn [serve perform]. unfold bind.
  rewrite (create_custom m e req w u s Hu Hv Hs Hvs), Hfree.
  set (doc := new_Url (now e) u s _ _).
  assert (Hslug : shortSlug doc = s) by exact Htrim.
  set (w1 := {| db := db w ++ [doc] |}).
  rewrite (redirect_hit_exact s w1 (length (db w)) doc).
  2: { cbn [db w1]. apply pick_appended; [congruence | now rewrite Hslug | reflexivity]. }
  2: { cbn. lia. }
  set (w2 := {| db := <[length (db w) := set_visits (visits doc + 1) doc]> (db w1) |}).
  rewrite (stats_hit e2 s w2 (length (db w)) (set_visits (visits doc + 1) doc)).
  2: { cbn [db w2 w1]. apply (pick_insert _ _ _ doc).
       - apply pick_appended_by_slug; [congruence | now rewrite Hslug].
       - apply by_slug_true. cbn [shortSlug set_visits]. congruence. }
  unfold ret. cbn [fst]. unfold doc, new_Url, set_visits.
  cbn [originalUrl shortSlug title description visits createdAt isActive].
  rewrite Htrim. reflexivity.
Qed.

(** X6. A slug is never free again: after the soft delete of a document
    whose slug matches the pattern, and whatever requests are served after
    it, a creation request with a valid URL that asks for that slug is
    answered 409 SlugTaken and stores nothing. *)
Theorem deleted_slug_not_reused (m : method) (e e' : env) (req : create_request)
    (history : list (env * operation)) (w : world) (i : nat) (d : Url) (u : string) :
  db w !! i = Some d -> validateSlug (shortSlug d) = true ->
  q_url req = Some u -> validateUrl u = true -> q_slug req = Some (shortSlug d) ->
  status_of (fst (delete e (Some (shortSlug d)) w)) = 200%nat /\
  fst (create m e' req
         (snd (serve ((e, DoDelete (Some (shortSlug d))) :: history) w))) = SlugTaken /\
  db (snd (create m e' req
             (snd (serve ((e, DoDelete (Some (shortSlug d))) :: history) w)))) =
    db (snd (serve ((e, DoDelete (Some (shortSlug d))) :: history) w)).
Proof.
  intros Hi Hvs Hu Hv Hs. destruct (valid_slug_facts _ Hvs) as [Hne Htrim].
  split.
  - destruct (pick_held (shortSlug d) (db w)) as (j & d0 & Hp & _).
    { rewrite Htrim. now apply (taken_lookup _ i). }
    now rewrite (delete_hit e _ w j d0 Hne Hp).
  - rewrite (create_custom m e' req _ u (shortSlug d) Hu Hv Hs Hvs).
    rewrite serve_taken; [split; reflexivity|].
    now apply (taken_lookup _ i).
Qed.

End Composition.

(** X7. Soft delete is idempotent: a second soft delete of the same slug
    has the status of the first and leaves the collection as the first
    left it.  It writes nothing: when the document is found it sends its
    lookup and the existence check that [save] makes for a document that
    was not modified; when there is none, its lookup; for a missing or
    empty slug, nothing. *)
Theorem delete_twice (e1 e2 : env) (slug : option string) (w : world) :
  status_of (fst (delete e2 slug (snd (delete e1 slug w)))) =
    status_of (fst (delete e1 slug w)) /\
  db (snd (delete e2 slug (snd (delete e1 slug w)))) = db (snd (delete e1 slug w)) /\
  exists reads,
    oplog (snd (delete e2 slug (snd (delete e1 slug w)))) =
      oplog (snd (delete e1 slug w)) ++ reads /\
    (status_of (fst (delete e1 slug w)) = 200%nat /\ reads = [OpFindOne; OpFindOne] \/
     status_of (fst (delete e1 slug w)) = 404%nat /\ reads = [OpFindOne] \/
     status_of (fst (delete e1 slug w)) = 400%nat /\ reads = []).
Proof.
  destruct slug as [s|].
  2: { cbn. split; [reflexivity|]. split; [reflexivity|]. exists [].
       rewrite app_nil_r. auto. }
  destruct (String.eqb_spec s "") as [->|Hs].
  { cbn. split; [reflexivity|]. split; [reflexivity|]. exists [].
    rewrite app_nil_r. auto. }
  destruct (pick (by_slug s) (db w)) as [[i d]|] eqn:Hp.
  - rewrite (delete_hit e1 s w i d Hs Hp). cbn [fst snd].
    set (w1 := {| db := <[i := set_isActive false d]> (db w) |}).
    assert (Hp1 : pick (by_slug s) (db w1) = Some (i, set_isActive false d)).
    { cbn [db w1]. apply (pick_insert _ _ _ d); [exact Hp|].
      apply pick_Some in Hp as (_ & Hd & _). exact Hd. }
    rewrite (delete_hit e2 s w1 i _ Hs Hp1).
    cbn [fst snd db oplog status_of isActive set_isActive w1].
    split; [reflexivity|]. split.
    + rewrite list_insert_insert_eq. f_equal.
    + exists [OpFindOne; OpFindOne]. split; [reflexivity|]. left. now split.
  - rewrite (delete_miss e1 s w Hs Hp). cbn [fst snd].
    set (w1 := {| db := db w |}).
    rewrite (delete_miss e2 s w1 Hs Hp). cbn [fst snd db oplog status_of w1].
    split; [reflexivity|]. split; [reflexivity|]. exists [OpFindOne].
    split; [reflexivity|]. right. left. now split.
Qed.

Lemma create_redirect_stats_example :
  fst (serve [(Sample.an_env, DoCreate POST
                 {| q_url := Some " https://example.com "; q_slug := Some "docs";
                    q_title := Some " Docs "; q_desc := None |});
              (Sample.an_env, DoRedirect "docs");
              (Sample.later, DoStats "docs")] Sample.one_link) =
    [created POST Sample.an_env " https://example.com " "docs" " Docs " "" 1000;
     Redirect 301 "https://example.com";
     Json 200 (Stats
       {| s_originalUrl := "https://example.com";
          s_shortSlug := "docs";
          s_shortUrl := "http://localhost:4056/r/docs";
          s_title := "Docs";
          s_description := "";
          s_visits := 1;
          s_isActive := true;
          s_createdAt := 1000;
          s_lastAccessed := Some 2000 |})].
Proof.
  exact (create_redirect_stats (H := URL.reference_authority)
           (H0 := RegexFacts.reference_engine) (H1 := SorterFacts.reference_sorter)
           POST Sample.an_env Sample.an_env Sample.later
           {| q_url := Some " https://example.com "; q_slug := Some "docs";
              q_title := Some " Docs "; q_desc := None |}
           Sample.one_link " https://example.com " "docs"
           eq_refl eq_refl eq_refl eq_refl eq_refl).
Defined.

Lemma deleted_slug_not_reused_example :
  fst (create GET Sample.later
         (Sample.a_request (Some "https://example.org") (Some "my-link"))
         (snd (serve [(Sample.an_env, DoDelete (Some "my-link"));
                      (Sample.later, DoRedirect "my-link");
                      (Sample.later, DoDelete (Some "my-link"))] Sample.one_link))) =
    SlugTaken.
Proof.
  exact (proj1 (proj2 (deleted_slug_not_reused (H := URL.reference_authority)
                  (H0 := RegexFacts.reference_engine) (H1 := SorterFacts.reference_sorter)
                  GET Sample.an_env Sample.later
                  (Sample.a_request (Some "https://example.org") (Some "my-link"))
                  [(Sample.later, DoRedirect "my-link");
                   (Sample.later, DoDelete (Some "my-link"))]
                  Sample.one_link 0 Sample.my_link "https://example.org"
                  eq_refl eq_refl eq_refl eq_refl eq_refl))).
Defined.

(** The second soft delete of a document sends two reads. *)
Example second_delete_reads :
  oplog (snd (delete Sample.later (Some "my-link")
                (snd (delete Sample.an_env (Some "my-link") Sample.one_link)))) =
    [OpFindOne; OpUpdate; OpFindOne; OpFindOne].
Proof. reflexivity. Qed.

(** ** The admin check *)

(** X8. [requireAdmin] calls [next()] exactly when the request carries a
    non-empty [adminKey] equal to the configured secret; otherwise it
    answers 401 or 403 itself.  When no secret is configured, or an empty
    one, no request is let through. *)
Theorem requireAdmin_passes (e : env) (adminKey : option string) :
  (requireAdmin e adminKey = None <->
   exists k, adminKey = Some k /\ k <> "" /\ ADMIN_KEY e = Some k) /\
  (requireAdmin e adminKey = None \/
   requireAdmin e adminKey = Some Unauthorized \/
   requireAdmin e adminKey = Some Forbidden) /\
  (ADMIN_KEY e = None \/ ADMIN_KEY e = Some "" -> requireAdmin e adminKey <> None).
Proof.
  assert (Hiff : requireAdmin e adminKey = None <->
            exists k, adminKey = Some k /\ k <> "" /\ ADMIN_KEY e = Some k).
  { split.
    - unfold requireAdmin. destruct adminKey as [k|]; [|discriminate].
      destruct (String.eqb_spec k "") as [->|Hk]; [discriminate|].
      rewrite (truthy_Some k Hk). cbn [negb].
      destruct (ADMIN_KEY e) as [a|]; cbn [differs]; [|discriminate].
      destruct (String.eqb_spec k a) as [->|Hne]; [|discriminate].
      intros _. now exists a.
    - intros (k & -> & Hk & He). now apply requireAdmin_next. }
  split; [exact Hiff|]. split.
  - unfold requireAdmin. destruct (negb (JS.truthy adminKey)); [auto|].
    destruct (differs adminKey (ADMIN_KEY e)); auto.
  - intros Hunset Hpass. apply Hiff in Hpass as (k & _ & Hk & He).
    destruct Hunset as [Hu|Hu]; rewrite Hu in He; [discriminate|].
    injection He as <-. now apply Hk.
Qed.

(** ** The listing and the statistics read only *)

Section ReadOnly.
Context `{Regex.Engine} `{Sorter}.

Lemma linksdata_handler_reads req w :
  exists reads,
    snd (linksdata_handler req w) =
      {| db := db w; oplog := oplog w ++ reads; drawn := drawn w |} /\
    forallb is_read reads = true.
Proof.
  unfold linksdata_handler, bind, countDocuments, find, aggregate_visits, storage.
  cbn [db oplog drawn].
  destruct (accepted (build_query _ _)).
  2: { now exists [OpCount]. }
  assert (Hfailed : exists reads,
            {| db := db w; oplog := (oplog w ++ [OpCount]) ++ [OpFind]; drawn := drawn w |} =
            {| db := db w; oplog := oplog w ++ reads; drawn := drawn w |} /\
            forallb is_read reads = true).
  { exists [OpCount; OpFind]. now rewrite <- app_assoc. }
  destruct (sort _ _ _); [|exact Hfailed].
  destruct (paginate _ _ _); cbn [fmap option_fmap option_map]; [|exact Hfailed].
  destruct (number_param 1 (q_page req)); [|exact Hfailed].
  destruct (number_param 100 (q_limit req)); [|exact Hfailed].
  exists [OpCount; OpFind; OpCount; OpAggregate]. unfold ret. cbn [snd db oplog drawn].
  now rewrite <- !app_assoc.
Qed.

(** X9. The admin listing and the statistics of a slug never change the
    collection and never draw from the random source, whatever their
    parameters: every storage operation they send is a read.  A listing
    request that fails the admin check sends none at all. *)
Theorem listing_and_stats_read_only (e : env) (req : list_request) (slug : string)
    (w : world) :
  (exists reads,
     snd (linksdata e req w) =
       {| db := db w; oplog := oplog w ++ reads; drawn := drawn w |} /\
     forallb is_read reads = true /\
     (requireAdmin e (q_adminKey req) <> None -> reads = [])) /\
  (exists reads,
     snd (stats e slug w) =
       {| db := db w; oplog := oplog w ++ reads; drawn := drawn w |} /\
     forallb is_read reads = true).
Proof.
  split.
  - unfold linksdata. destruct (requireAdmin e (q_adminKey req)) as [answer|].
    + exists []. unfold ret. cbn [snd]. rewrite app_nil_r. destruct w. auto.
    + destruct (linksdata_handler_reads req w) as (reads & Hw & Hr).
      exists reads. split; [exact Hw|]. split; [exact Hr|]. intros Hne. now destruct Hne.
  - exists [OpFindOne]. split; [|reflexivity].
    destruct (pick (by_slug slug) (db w)) as [[i d]|] eqn:Hp.
    + now rewrite (stats_hit e slug w i d Hp).
    + now rewrite (stats_miss e slug w Hp).
Qed.

End ReadOnly.

(** ** The statistics block of the listing *)


Section Statistics.
Context `{Regex.Engine} `{Sorter}.



(** A listing that succeeds passed the admin check and is the handler's. *)
Lemma linksdata_listing e req w urls pages stats :
  fst (linksdata e req w) = Json 200 (Listing urls pages stats) ->
  fst (linksdata_handler req w) = Json 200 (Listing urls pages stats).
Proof.
  unfold linksdata, requireAdmin.
  destruct (negb (JS.truthy (q_adminKey req))); [discriminate|].
  destruct (differs _ _); [discriminate|]. auto.
Qed.




(** X12. A page number below 1 with a limit of at least 1 gives a negative
    offset, which the storage rejects: the listing answers 500 and the
    collection is unchanged. *)
Theorem listing_page_below_one (e : env) (req : list_request) (w : world)
    (k : string) (p l : Z) :
  q_adminKey req = Some k -> k <> "" -> ADMIN_KEY e = Some k ->
  number_param 1 (q_page req) = Some p ->
  number_param 100 (q_limit req) = Some l ->
  p <= 0 -> 1 <= l ->
  fst (linksdata e req w) = ListingFailed /\
  db (snd (linksdata e req w)) = db w.
Proof.
  intros Hk Hkne He Hp Hl Hp0 Hl1.
  split; [|apply linksdata_effect].
  unfold linksdata. rewrite Hk, (requireAdmin_next e k Hkne He).
  unfold linksdata_handler. rewrite Hp, Hl.
  unfold bind, countDocuments, find, storage. cbn [db oplog drawn].
  destruct (accepted _); [|reflexivity].
  destruct (sort _ _ _) as [sorted|]; [|reflexivity].
  replace (paginate (JS.finite (JS.times (JS.minus p 1) l)) (Some l) sorted)
    with (@None (list (nat * Url))); [reflexivity|].
  unfold paginate.
  destruct (JS.finite (JS.times (JS.minus p 1) l)) as [s|] eqn:Hs; [|reflexivity].
  apply (skip_negative p l s Hp0 Hl1) in Hs.
  now replace (s <? 0) with true by (symmetry; apply Z.ltb_lt; exact Hs).
Qed.

End Statistics.



Lemma listing_page_below_one_example :
  fst (linksdata Sample.an_env
         {| q_adminKey := Some "secret"; q_page := Some "0"; q_limit := None;
            q_sort := None; q_order := None; q_search := None; q_active := None |}
         Sample.two_links) = ListingFailed.
Proof.
  exact (proj1 (listing_page_below_one (H := RegexFacts.reference_engine)
                  (H0 := SorterFacts.reference_sorter) Sample.an_env
                  {| q_adminKey := Some "secret"; q_page := Some "0"; q_limit := None;
                     q_sort := None; q_order := None; q_search := None; q_active := None |}
                  Sample.two_links "secret" 0 100
                  eq_refl ltac:(discriminate) eq_refl eq_refl eq_refl
                  ltac:(lia) ltac:(lia))).
Defined.

(** ** Invariants of the collection *)

Section CollectionInvariants.
Context `{URL.AuthorityParser} `{Regex.Engine} `{Sorter}.

Lemma perform_valid_slugs e op w :
  valid_slugs (db w) -> valid_slugs (db (snd (perform e op w))).
Proof.
  intros Hv.
  destruct (perform_cases e op w)
    as [->|[(i & d & d' & Hi & -> & Hs & _)|(d & -> & Hvs & _)]]; [exact Hv| |].
  - intros y Hy. apply list_elem_of_lookup in Hy as [j Hj].
    destruct (decide (i = j)) as [<-|Hne].
    + rewrite list_lookup_insert_eq in Hj by (eapply lookup_lt_Some; eauto).
      injection Hj as <-. rewrite Hs. apply Hv, list_elem_of_lookup. eauto.
    + rewrite list_lookup_insert_ne in Hj by exact Hne.
      apply Hv, list_elem_of_lookup. eauto.
  - intros y Hy. apply list_elem_of_lookup in Hy as [j Hj].
    apply lookup_snoc in Hj as [Hj|[_ ->]]; [|exact Hvs].
    apply Hv, list_elem_of_lookup. eauto.
Qed.

(** X13. The slugs of the collection stay unique and stay within the
    pattern of custom slugs along any sequence of requests: custom slugs
    are validated, generated ones lie within the pattern, and the insert
    refuses a slug that is held.  In particular this holds of every
    collection built from the empty one. *)
Theorem slugs_unique_and_valid (history : list (env * operation)) (w : world) :
  unique_slugs (db w) -> valid_slugs (db w) ->
  unique_slugs (db (snd (serve history w))) /\
  valid_slugs (db (snd (serve history w))).
Proof.
  revert w. induction history as [|[e op] rest IH]; intros w Hu Hv; [now split|].
  cbn [serve]. unfold bind.
  pose proof (perform_unique e op w Hu) as Hu1.
  pose proof (perform_valid_slugs e op w Hv) as Hv1.
  destruct (perform e op w) as [r w1]. cbn [snd] in Hu1, Hv1.
  specialize (IH w1 Hu1 Hv1). now destruct (serve rest w1) as [rs w2].
Qed.

(** X14. No request removes a document or rewrites its link: along any
    sequence of requests a stored document stays at its position with the
    [shortSlug], [originalUrl], [title] and [description] it was created
    with. *)
Theorem links_never_change (history : list (env * operation)) (w : world)
    (i : nat) (d : Url) :
  db w !! i = Some d ->
  exists d', db (snd (serve history w)) !! i = Some d' /\
    shortSlug d' = shortSlug d /\ originalUrl d' = originalUrl d /\
    title d' = title d /\ description d' = description d.
Proof.
  intros Hi. destruct (serve_same_link history w i d Hi) as (d' & Hi' & Hsame).
  exists d'. split; [exact Hi' | exact Hsame].
Qed.

End CollectionInvariants.

Lemma slugs_unique_and_valid_example :
  unique_slugs
    (db (snd (serve [(Sample.an_env, DoCreate GET
                        (Sample.a_request (Some "https://example.com") None));
                     (Sample.an_env, DoCreate POST
                        (Sample.a_request (Some "https://example.com") (Some "docs")));
                     (Sample.later, DoDelete (Some "docs"))] Sample.empty))) /\
  valid_slugs
    (db (snd (serve [(Sample.an_env, DoCreate GET
                        (Sample.a_request (Some "https://example.com") None));
                     (Sample.an_env, DoCreate POST
                        (Sample.a_request (Some "https://example.com") (Some "docs")));
                     (Sample.later, DoDelete (Some "docs"))] Sample.empty))).
Proof.
  apply (slugs_unique_and_valid (H := URL.reference_authority)
           (H0 := RegexFacts.reference_engine) (H1 := SorterFacts.reference_sorter)).
  - apply unique_slugs_nil.
  - intros d Hd. cbn in Hd. now apply elem_of_nil in Hd.
Defined.

Lemma links_never_change_example :
  exists d',
    db (snd (serve [(Sample.an_env, DoRedirect "my-link");
                    (Sample.later, DoDelete (Some "my-link"))] Sample.one_link)) !! 0%nat
      = Some d' /\
    shortSlug d' = "my-link" /\ originalUrl d' = "https://example.com" /\
    title d' = "" /\ description d' = "".
Proof.
  exact (links_never_change (H := URL.reference_authority)
           (H0 := RegexFacts.reference_engine) (H1 := SorterFacts.reference_sorter)
           [(Sample.an_env, DoRedirect "my-link");
            (Sample.later, DoDelete (Some "my-link"))]
           Sample.one_link 0 Sample.my_link eq_refl).
Defined.

(** ** Overlapping redirects, in general *)

Lemma redirected_cons t tasks :
  redirected (t :: tasks) = ((if is_redirected t then 1 else 0) + redirected tasks)%nat.
Proof.
  unfold redirected. cbn [List.filter]. fold (is_redirected t).
  now destruct (is_redirected t).
Qed.

Lemma redirected_insert tasks : forall k t t',
  tasks !! k = Some t ->
  (redirected (<[k := t']> tasks) + (if is_redirected t then 1 else 0))%nat =
  (redirected tasks + (if is_redirected t' then 1 else 0))%nat.
Proof.
  induction tasks as [|x tasks IH]; intros [|k] t t' Hk; try discriminate.
  - injection Hk as ->. change (<[0%nat := t']> (t :: tasks)) with (t' :: tasks).
    rewrite !redirected_cons. lia.
  - change (<[S k := t']> (x :: tasks)) with (x :: <[k := t']> tasks).
    rewrite !redirected_cons. specialize (IH k t t' Hk). lia.
Qed.

Lemma redirected_replicate n slug : redirected (replicate n (Arrived slug)) = 0%nat.
Proof. induction n as [|n IH]; [reflexivity|]. cbn [replicate]. now rewrite redirected_cons, IH. Qed.

Lemma redirected_length tasks : (redirected tasks <= length tasks)%nat.
Proof.
  induction tasks as [|t tasks IH]; [reflexivity|].
  rewrite redirected_cons. cbn [length]. destruct (is_redirected t); lia.
Qed.

Lemma advance_arrived slug w i d :
  pick (by_slug_active slug) (db w) = Some (i, d) ->
  advance (Arrived slug) w =
    (Loaded i d, {| db := db w; oplog := oplog w ++ [OpFindOne]; drawn := drawn w |}).
Proof.
  intros Hp. cbn [advance]. unfold bind, findOne, storage. now rewrite Hp.
Qed.

Section Overlap.
Variables (s : string) (i : nat) (d0 : Url) (docs0 : list Url) (n : nat).
Hypothesis unique0 : unique_slugs docs0.
Hypothesis stored0 : docs0 !! i = Some d0.
Hypothesis slug0 : shortSlug d0 = JS.trim s.
Hypothesis active0 : isActive d0 = true.
Hypothesis count0 : 0 <= visits d0.
Hypothesis room0 : visits d0 + Z.of_nat n <= 2 ^ 53.

Lemma in_flight_mono k k' t : (k <= k')%nat -> in_flight s i d0 k t -> in_flight s i d0 k' t.
Proof.
  intros Hk. destruct t as [slug|j loaded|r]; cbn [in_flight]; auto.
  intros (Hj & y & Hy & Hb). split; [exact Hj|]. exists y. split; [exact Hy | lia].
Qed.

Lemma counted_step tasks w k t :
  length tasks = n ->
  counted s i d0 docs0 tasks w -> tasks !! k = Some t ->
  counted s i d0 docs0 (<[k := fst (advance t w)]> tasks) (snd (advance t w)).
Proof.
  intros Hn (x & Hdb & Hx & Hpos & Hall) Hk.
  assert (Ht : in_flight s i d0 (redirected tasks) t).
  { rewrite Forall_lookup in Hall. eapply Hall; eauto. }
  assert (Hlen : (i < length docs0)%nat) by (eapply lookup_lt_Some; eauto).
  assert (Hi : db w !! i = Some (set_visits x d0)).
  { rewrite Hdb. now apply list_lookup_insert_eq. }
  destruct t as [slug|j loaded|r]; cbn [in_flight] in Ht.
  - (* the lookup *)
    subst slug.
    assert (Hp : pick (by_slug_active s) (db w) = Some (i, set_visits x d0)).
    { apply pick_by_slug_active; [|exact Hi|exact slug0|exact active0].
      rewrite Hdb. now apply (unique_slugs_insert _ i d0). }
    rewrite (advance_arrived s w i _ Hp). cbn [fst snd db].
    pose proof (redirected_insert tasks k _ (Loaded i (set_visits x d0)) Hk) as Hcount.
    cbn [is_redirected] in Hcount.
    assert (Hsame : redirected (<[k := Loaded i (set_visits x d0)]> tasks) = redirected tasks)
      by lia.
    exists x. rewrite Hsame. split; [exact Hdb|]. split; [exact Hx|]. split; [exact Hpos|].
    apply Forall_insert; [exact Hall|]. cbn [in_flight]. split; [reflexivity|]. eauto.
  - (* the write *)
    destruct Ht as (-> & y & -> & Hy).
    pose proof (redirected_insert tasks k _ (Answered (Redirect 301 (originalUrl d0))) Hk)
      as Hcount.
    cbn [is_redirected] in Hcount.
    pose proof (redirected_length (<[k := Answered (Redirect 301 (originalUrl d0))]> tasks))
      as Hmost.
    rewrite length_insert, Hn in Hmost.
    rewrite (advance_loaded i _ w (set_visits x d0) Hi)
      by (cbn [visits set_visits]; lia).
    cbn [fst snd db visits set_visits originalUrl].
    set (tasks' := <[k := Answered (Redirect 301 (originalUrl d0))]> tasks) in *.
    assert (Hmore : redirected tasks' = S (redirected tasks)) by lia.
    exists (y + 1). rewrite Hmore. split; [|split; [lia|split; [lia|]]].
    + rewrite Hdb. now rewrite list_insert_insert_eq.
    + apply Forall_insert; [|reflexivity].
      eapply Forall_impl; [exact Hall|]. intros t. apply in_flight_mono. lia.
  - (* already answered *)
    subst r. cbn [advance]. unfold ret. cbn [fst snd].
    rewrite list_insert_id by exact Hk. exists x. auto.
Qed.

Lemma counted_interleave schedule : forall tasks w,
  length tasks = n ->
  counted s i d0 docs0 tasks w ->
  counted s i d0 docs0 (fst (interleave schedule tasks w)) (snd (interleave schedule tasks w)).
Proof.
  induction schedule as [|k rest IH]; intros tasks w Hn Hc; [exact Hc|].
  cbn [interleave]. destruct (tasks !! k) as [t|] eqn:Hk; [|now apply IH].
  unfold bind. pose proof (counted_step tasks w k t Hn Hc Hk) as Hstep.
  destruct (advance t w) as [t' w']. cbn [fst snd] in Hstep.
  apply IH; [now rewrite length_insert | exact Hstep].
Qed.

End Overlap.

(** X15. However the storage operations of [n] redirects for an active slug
    interleave, for a count that is not negative and stays within 2^53
    when [n] is added to it, the stored visit count never falls below the
    count before them and never exceeds it by more than the number of
    redirects answered so far; once a redirect has been answered the count
    is above the initial one.  Nothing else of the collection changes. *)
Theorem overlapping_redirects_bounds (schedule : list nat) (n : nat) (slug : string)
    (w : world) (i : nat) (d : Url) :
  unique_slugs (db w) -> db w !! i = Some d -> shortSlug d = JS.trim slug ->
  isActive d = true -> 0 <= visits d -> visits d + Z.of_nat n <= 2 ^ 53 ->
  exists x,
    db (snd (interleave schedule (replicate n (Arrived slug)) w)) =
      <[i := set_visits x d]> (db w) /\
    visits d <= x <=
      visits d + Z.of_nat (redirected (fst (interleave schedule (replicate n (Arrived slug)) w))) /\
    ((0 < redirected (fst (interleave schedule (replicate n (Arrived slug)) w)))%nat ->
     visits d + 1 <= x) /\
    Forall (in_flight slug i d
              (redirected (fst (interleave schedule (replicate n (Arrived slug)) w))))
      (fst (interleave schedule (replicate n (Arrived slug)) w)).
Proof.
  intros Hu Hi Hs Ha Hv Hroom.
  apply (counted_interleave slug i d (db w) n Hu Hi Hs Ha Hv Hroom).
  { apply length_replicate. }
  exists (visits d). rewrite redirected_replicate, set_visits_same.
  split; [symmetry; now apply list_insert_id|]. split; [lia|]. split; [lia|].
  apply Forall_forall. intros t Ht. apply elem_of_replicate in Ht as [-> _]. reflexivity.
Qed.

Lemma overlapping_redirects_bounds_example :
  exists x,
    db (snd (interleave [0; 1; 2; 1; 0; 2]%nat (replicate 3 (Arrived "my-link"))
               Sample.one_link)) = <[0%nat := set_visits x Sample.my_link]> [Sample.my_link] /\
    0 <= x <= 3.
Proof.
  destruct (overlapping_redirects_bounds [0; 1; 2; 1; 0; 2]%nat 3 "my-link"
              Sample.one_link 0 Sample.my_link (unique_one _) eq_refl eq_refl eq_refl
              ltac:(simpl; lia) ltac:(simpl; lia))
    as (x & Hdb & Hx & _ & _).
  exists x. split; [exact Hdb|].
  assert (Hr : redirected (fst (interleave [0; 1; 2; 1; 0; 2]%nat
                                  (replicate 3 (Arrived "my-link")) Sample.one_link)) = 3%nat)
    by reflexivity.
  rewrite Hr in Hx. change (visits Sample.my_link) with 0 in Hx. lia.
Defined.

(** ** Overlapping creations *)

Section CreationSteps.
Context `{URL.AuthorityParser}.

Lemma settle_replied n r w : settle n (Replied r) w = (Replied r, w).
Proof.
  induction n as [|n IH]; [reflexivity|]. cbn [settle proceed]. unfold bind, ret. exact IH.
Qed.

Lemma settle_saving n m e req s w :
  settle (S n) (Saving m e req s) w =
  (Replied (fst (finish m e req s w)), snd (finish m e req s w)).
Proof.
  cbn [settle proceed]. unfold finish, bind.
  destruct (save_new _ w) as [[[]|] w1]; unfold ret; cbn [fst snd]; apply settle_replied.
Qed.

Lemma attempt_step m e req n w :
  attempt m e req (S n) w =
  let w1 := {| db := db w; oplog := oplog w ++ [OpFindOne]; drawn := S (drawn w) |} in
  match pick (by_slug (slug_of_draw (entropy e (drawn w)))) (db w) with
  | None => (Saving m e req (slug_of_draw (entropy e (drawn w))), w1)
  | Some _ =>
      match n with
      | O => (Replied GenerationExhausted, w1)
      | S n' => (Generating m e req (S n'), w1)
      end
  end.
Proof.
  unfold attempt, bind, generateSlug, findOne, storage. cbn [db oplog drawn Nat.pred].
  destruct (pick _ (db w)); [|reflexivity]. now destruct n.
Qed.

Lemma settle_generating m e req n : forall steps w,
  (n < steps)%nat ->
  settle steps (Generating m e req n) w =
  match fst (generate_unique e n w) with
  | None => (Replied GenerationExhausted, snd (generate_unique e n w))
  | Some s =>
      (Replied (fst (finish m e req s (snd (generate_unique e n w)))),
       snd (finish m e req s (snd (generate_unique e n w))))
  end.
Proof.
  induction n as [|n IH]; intros [|steps] w Hlt; try lia.
  - cbn [settle proceed generate_unique]. unfold bind, ret. cbn [fst snd].
    apply settle_replied.
  - cbn [settle proceed]. unfold bind. rewrite attempt_step, generate_unique_step.
    cbv zeta.
    destruct (pick (by_slug (slug_of_draw (entropy e (drawn w)))) (db w)).
    + destruct n as [|n'].
      * cbn [generate_unique ret fst snd]. unfold ret. cbn [fst snd].
        apply settle_replied.
      * apply IH. lia.
    + cbn [fst snd]. destruct steps as [|steps]; [lia|]. apply settle_saving.
Qed.

Lemma create_as_finish m e req w :
  create m e req w =
  if negb (JS.truthy (q_url req)) then (MissingURL m, w)
  else if negb (validateUrl (JS.or_empty (q_url req))) then (InvalidURL, w)
  else match fst (resolve_slug e (q_slug req) w) with
       | inl failure => (failure, snd (resolve_slug e (q_slug req) w))
       | inr s => finish m e req s (snd (resolve_slug e (q_slug req) w))
       end.
Proof.
  unfold create. destruct (negb (JS.truthy (q_url req))); [reflexivity|].
  destruct (negb (validateUrl (JS.or_empty (q_url req)))); [reflexivity|].
  unfold bind at 1. now destruct (resolve_slug e (q_slug req) w) as [[failure|s] w1].
Qed.

(** X16. The handler of a creation is its steps run back to back: six
    steps (the first existence check, up to four more attempts, the
    insert) always bring a request served on its own to its reply, which
    is the response of the handler, with the same effect on the storage. *)
Theorem create_as_steps (m : method) (e : env) (req : create_request) (w : world) :
  settle 6 (Requested m e req) w =
  (Replied (fst (create m e req w)), snd (create m e req w)).
Proof.
  rewrite create_as_finish.
  change (settle 6 (Requested m e req) w)
    with (let (t, w1) := proceed (Requested m e req) w in settle 5 t w1).
  cbn [proceed].
  destruct (negb (JS.truthy (q_url req))); [reflexivity|].
  destruct (negb (validateUrl (JS.or_empty (q_url req)))); [reflexivity|].
  unfold resolve_slug. destruct (JS.truthy (q_slug req)).
  - destruct (negb (validateSlug (JS.or_empty (q_slug req)))); [reflexivity|].
    unfold bind, findOne, storage.
    destruct (pick (by_slug (JS.or_empty (q_slug req))) (db w)) as [[i d]|];
      unfold ret; cbn [fst snd]; [reflexivity|].
    apply settle_saving.
  - change (let (t, w1) := attempt m e req 5 w in settle 5 t w1)
      with (settle 6 (Generating m e req 5) w).
    rewrite settle_generating by lia. unfold bind.
    destruct (generate_unique e 5 w) as [[s|] w1]; reflexivity.
Qed.

(** X17. The race between check and insert: when two creation requests
    with valid URLs ask for the same free custom slug and both existence
    checks are served before either insert, the first insert succeeds
    and the second is refused by the unique index; the second request is
    answered 409 by the catch block, and one document is stored. *)
Theorem racing_creations (m1 m2 : method) (e1 e2 : env) (req1 req2 : create_request)
    (w : world) (u1 u2 s : string) :
  q_url req1 = Some u1 -> validateUrl u1 = true -> q_slug req1 = Some s ->
  q_url req2 = Some u2 -> validateUrl u2 = true -> q_slug req2 = Some s ->
  validateSlug s = true -> taken s (db w) = false ->
  overlap [0; 1; 0; 1]%nat [Requested m1 e1 req1; Requested m2 e2 req2] w =
  ([Replied (created m1 e1 u1 s (JS.or_empty (q_title req1)) (JS.or_empty (q_desc req1))
               (now e1));
    Replied SlugTakenOnInsert],
   {| db := db w ++ [new_Url (now e1) u1 s (JS.or_empty (q_title req1))
                       (JS.or_empty (q_desc req1))];
      oplog := oplog w ++ [OpFindOne; OpFindOne; OpInsert; OpInsert];
      drawn := drawn w |}).
Proof.
  intros Hu1 Hv1 Hs1 Hu2 Hv2 Hs2 Hvs Hfree.
  destruct (valid_slug_facts s Hvs) as [Hne Htrim].
  assert (Hcheck : forall m e req u w',
            q_url req = Some u -> validateUrl u = true -> q_slug req = Some s ->
            db w' = db w ->
            proceed (Requested m e req) w' =
              (Saving m e req s,
               {| db := db w'; oplog := oplog w' ++ [OpFindOne]; drawn := drawn w' |})).
  { intros m e req u w' Hu Hv Hs Hdb. cbn [proceed].
    rewrite Hu, (valid_url_truthy u Hv). cbn [negb JS.or_empty]. rewrite Hv. cbn [negb].
    rewrite Hs, (truthy_Some s Hne). cbn [JS.or_empty]. rewrite Hvs. cbn [negb].
    unfold bind, findOne, storage. rewrite Hdb.
    apply (pick_taken_valid _ _ Htrim) in Hfree. now rewrite Hfree. }
  cbn [overlap lookup list_lookup]. unfold bind at 1.
  rewrite (Hcheck m1 e1 req1 u1 w Hu1 Hv1 Hs1 eq_refl).
  change (<[0%nat := Saving m1 e1 req1 s]> [Requested m1 e1 req1; Requested m2 e2 req2])
    with [Saving m1 e1 req1 s; Requested m2 e2 req2].
  cbn [overlap lookup list_lookup]. unfold bind at 1.
  set (w1 := {| db := db w; oplog := oplog w ++ [OpFindOne]; drawn := drawn w |}).
  rewrite (Hcheck m2 e2 req2 u2 w1 Hu2 Hv2 Hs2 eq_refl). unfold w1. cbn [db oplog drawn].
  change (<[1%nat := Saving m2 e2 req2 s]> [Saving m1 e1 req1 s; Requested m2 e2 req2])
    with [Saving m1 e1 req1 s; Saving m2 e2 req2 s].
  cbn [overlap lookup list_lookup]. unfold bind at 1.
  cbn [proceed]. unfold bind at 1. rewrite Hu1. cbn [JS.or_empty].
  rewrite save_new_ok.
  2: { unfold validates, new_Url. cbn [originalUrl shortSlug]. rewrite Htrim.
       apply andb_true_iff. split; apply negb_true_iff, String.eqb_neq;
         [now apply valid_url_not_blank | exact Hne]. }
  2: { unfold new_Url. cbn [shortSlug db]. now rewrite Htrim. }
  unfold ret at 1. cbn [db oplog drawn].
  change (<[0%nat := ?t]> [Saving m1 e1 req1 s; Saving m2 e2 req2 s])
    with [t; Saving m2 e2 req2 s].
  cbn [insert list_insert overlap lookup list_lookup]. unfold bind at 1.
  cbn [proceed]. unfold bind at 1. rewrite Hu2. cbn [JS.or_empty].
  unfold save_new.
  replace (validates (new_Url (now e2) u2 s _ _)) with true.
  2: { symmetry. unfold validates, new_Url. cbn [originalUrl shortSlug]. rewrite Htrim.
       apply andb_true_iff. split; apply negb_true_iff, String.eqb_neq;
         [now apply valid_url_not_blank | exact Hne]. }
  unfold storage, insert_doc. cbn [db oplog drawn].
  replace (existsb (has_slug (shortSlug (new_Url (now e2) u2 s _ _))) _) with true.
  2: { symmetry. rewrite existsb_app. apply orb_true_iff. right.
       unfold new_Url, has_slug. cbn [existsb shortSlug]. rewrite Htrim.
       now rewrite String.eqb_refl. }
  unfold ret. cbn [insert list_insert overlap]. unfold ret.
  rewrite <- !app_assoc. reflexivity.
Qed.

Lemma proceed_effect t w :
  db (snd (proceed t w)) = db w \/
  exists d, db (snd (proceed t w)) = db w ++ [d] /\ taken (shortSlug d) (db w) = false.
Proof.
  assert (Hattempt : forall m e req n, db (snd (attempt m e req n w)) = db w).
  { intros m e req [|n]; unfold attempt, bind, generateSlug, findOne, storage;
      cbn [db]; destruct (pick _ (db w)); try reflexivity. now destruct n. }
  assert (Hsave : forall d,
            db (snd (save_new d w)) = db w \/
            db (snd (save_new d w)) = db w ++ [d] /\ taken (shortSlug d) (db w) = false).
  { intros d. unfold save_new. destruct (validates d); [|now left].
    unfold storage, insert_doc. fold (taken (shortSlug d) (db w)).
    destruct (taken (shortSlug d) (db w)); [now left | now right]. }
  destruct t as [m e req|m e req n|m e req s|r]; cbn [proceed].
  - destruct (negb (JS.truthy (q_url req))); [now left|].
    destruct (negb (validateUrl (JS.or_empty (q_url req)))); [now left|].
    destruct (JS.truthy (q_slug req)); [|left; apply Hattempt].
    destruct (negb (validateSlug (JS.or_empty (q_slug req)))); [now left|].
    left. unfold bind, findOne, storage. now destruct (pick _ (db w)).
  - destruct n; [now left | left; apply Hattempt].
  - unfold bind. set (doc := new_Url _ _ _ _ _). specialize (Hsave doc).
    destruct (save_new doc w) as [[[]|] w1]; unfold ret; cbn [snd] in *;
      (destruct Hsave as [Hs|Hs]; [now left | right; now exists doc]).
  - now left.
Qed.

(** X18. However the steps of any number of creation requests interleave,
    the slugs of the collection stay unique, and the collection only
    grows: the documents it held are all still there, unchanged and in
    their order. *)
Theorem overlapping_creations_keep_index (schedule : list nat) (ts : list creation)
    (w : world) :
  unique_slugs (db w) ->
  unique_slugs (db (snd (overlap schedule ts w))) /\
  exists more, db (snd (overlap schedule ts w)) = db w ++ more.
Proof.
  revert ts w. induction schedule as [|k rest IH]; intros ts w Hu.
  - split; [exact Hu|]. exists []. cbn. now rewrite app_nil_r.
  - cbn [overlap]. destruct (ts !! k) as [t|]; [|now apply IH].
    unfold bind. pose proof (proceed_effect t w) as Hstep.
    destruct (proceed t w) as [t' w1]. cbn [snd] in Hstep.
    assert (Hu1 : unique_slugs (db w1)).
    { destruct Hstep as [->|(d & -> & Hfree)]; [exact Hu | now apply unique_slugs_app]. }
    destruct (IH (<[k := t']> ts) w1 Hu1) as [Hu2 (more & Hmore)].
    split; [exact Hu2|]. rewrite Hmore.
    destruct Hstep as [->|(d & -> & _)]; [now exists more|].
    exists (d :: more). now rewrite <- app_assoc.
Qed.

End CreationSteps.

Lemma racing_creations_example :
  overlap [0; 1; 0; 1]%nat
    [Requested GET Sample.an_env (Sample.a_request (Some "https://example.com") (Some "docs"));
     Requested POST Sample.later (Sample.a_request (Some "https://example.org") (Some "docs"))]
    Sample.one_link =
  ([Replied (created GET Sample.an_env "https://example.com" "docs" "" "" 1000);
    Replied SlugTakenOnInsert],
   {| db := [Sample.my_link; new_Url 1000 "https://example.com" "docs" "" ""];
      oplog := [OpFindOne; OpFindOne; OpInsert; OpInsert];
      drawn := 0 |}).
Proof.
  exact (racing_creations (H := URL.reference_authority) GET POST Sample.an_env Sample.later
           (Sample.a_request (Some "https://example.com") (Some "docs"))
           (Sample.a_request (Some "https://example.org") (Some "docs"))
           Sample.one_link "https://example.com" "https://example.org" "docs"
           eq_refl eq_refl eq_refl eq_refl eq_refl eq_refl eq_refl eq_refl).
Defined.

Lemma overlapping_creations_keep_index_example :
  unique_slugs
    (db (snd (overlap [0; 1; 1; 0; 1]%nat
                [Requested GET Sample.an_env
                   (Sample.a_request (Some "https://example.com") (Some "docs"));
                 Requested POST Sample.later
                   (Sample.a_request (Some "https://example.org") None)]
                Sample.one_link))).
Proof.
  exact (proj1 (overlapping_creations_keep_index (H := URL.reference_authority)
                  [0; 1; 1; 0; 1]%nat
                  [Requested GET Sample.an_env
                     (Sample.a_request (Some "https://example.com") (Some "docs"));
                   Requested POST Sample.later
                     (Sample.a_request (Some "https://example.org") None)]
                  Sample.one_link (unique_one _))).
Defined.

(** ** A redirect that overlaps a soft delete *)

(** X19. When a soft delete is served between the lookup and the write of
    a redirect, for a count below 2^53 in absolute value, the redirect is
    still answered 301 and its visit is counted, and the write does not
    undo the delete: the document ends inactive with one more visit, and
    later redirects are answered 404. *)
Theorem redirect_across_delete (e : env) (slug : string) (w : world) (i : nat) (d : Url) :
  unique_slugs (db w) -> db w !! i = Some d -> shortSlug d = JS.trim slug ->
  isActive d = true -> slug <> "" -> Z.abs (visits d) < 2 ^ 53 ->
  exists w1 w2 w3,
    advance (Arrived slug) w = (Loaded i d, w1) /\
    snd (delete e (Some slug) w1) = w2 /\ status_of (fst (delete e (Some slug) w1)) = 200%nat /\
    advance (Loaded i d) w2 = (Answered (Redirect 301 (originalUrl d)), w3) /\
    db w3 = <[i := set_isActive false (set_visits (visits d + 1) d)]> (db w) /\
    fst (redirect slug w3) = ShortUrlNotFound.
Proof.
  intros Hu Hi Hs Ha Hne Hv.
  assert (Hlen : (i < length (db w))%nat) by (eapply lookup_lt_Some; eauto).
  eexists _, _, _.
  split; [apply advance_arrived; now apply pick_by_slug_active|].
  set (w1 := {| db := db w; oplog := oplog w ++ [OpFindOne] |}).
  rewrite (delete_hit e slug w1 i d Hne) by now apply pick_by_slug.
  cbn [fst snd status_of]. split; [reflexivity|]. split; [reflexivity|].
  rewrite (advance_loaded i d _ (set_isActive false d))
    by (try (cbn [db w1]; now apply list_lookup_insert_eq); exact Hv).
  split; [reflexivity|]. cbn [db w1]. rewrite list_insert_insert_eq.
  split; [reflexivity|].
  rewrite redirect_miss; [reflexivity|]. cbn [db].
  apply pick_no_active. intros y Hy Hys.
  apply list_elem_of_lookup in Hy as [j Hj].
  destruct (decide (i = j)) as [<-|Hij].
  - rewrite list_lookup_insert_eq in Hj by exact Hlen. now injection Hj as <-.
  - rewrite list_lookup_insert_ne in Hj by exact Hij.
    assert (j = i) by (eapply Hu; eauto; congruence). congruence.
Qed.

Lemma redirect_across_delete_example :
  exists w1 w2 w3,
    advance (Arrived "my-link") Sample.one_link = (Loaded 0 Sample.my_link, w1) /\
    snd (delete Sample.an_env (Some "my-link") w1) = w2 /\
    status_of (fst (delete Sample.an_env (Some "my-link") w1)) = 200%nat /\
    advance (Loaded 0 Sample.my_link) w2 =
      (Answered (Redirect 301 "https://example.com"), w3) /\
    db w3 = [set_isActive false (set_visits 1 Sample.my_link)] /\
    fst (redirect "my-link" w3) = ShortUrlNotFound.
Proof.
  exact (redirect_across_delete Sample.an_env "my-link" Sample.one_link 0 Sample.my_link
           (unique_one _) eq_refl eq_refl eq_refl ltac:(discriminate) ltac:(simpl; lia)).
Defined.

(** ** The order of the listing *)

Lemma strongly_sorted_page {A} (R : relation A) (l : list A) skip limit :
  StronglySorted R l -> StronglySorted R (take limit (drop skip l)).
Proof.
  intros Hl. rewrite <- (take_drop skip l) in Hl. apply StronglySorted_app_1_r in Hl.
  rewrite <- (take_drop limit (drop skip l)) in Hl. now apply StronglySorted_app_1_l in Hl.
Qed.

Lemma strongly_sorted_impl {A} (R R' : relation A) (l : list A) :
  (forall a b, R a b -> R' a b) -> StronglySorted R l -> StronglySorted R' l.
Proof.
  intros HR. induction 1 as [|x l Hl IH Hx]; constructor; [exact IH|].
  eapply Forall_impl; eauto.
Qed.

Section ListingOrder.
Context `{Regex.Engine} `{Sorter}.

(** X20. With the default sort path the documents of a listing that
    succeeds are ordered by creation time: newest first when [order] is
    absent or ['desc'], oldest first for any other value of [order]. *)
Theorem listing_order (e : env) (req : list_request) (w : world)
    (urls : list Url) (pages : pagination) (stats : statistics) :
  fst (linksdata e req w) = Json 200 (Listing urls pages stats) ->
  default "createdAt" (q_sort req) = "createdAt" ->
  (default "desc" (q_order req) = "desc" ->
   StronglySorted (fun a b => createdAt b <= createdAt a) urls) /\
  (default "desc" (q_order req) <> "desc" ->
   StronglySorted (fun a b => createdAt a <= createdAt b) urls).
Proof.
  intros Hr Hpath. apply linksdata_listing, linksdata_handler_listing in Hr.
  destruct Hr as (p & l & sorted & page & _ & _ & _ & Hsort & Hpage & -> & _).
  rewrite Hpath in Hsort.
  set (desc := String.eqb (default "desc" (q_order req)) "desc") in *.
  destruct (sort_known "createdAt" desc
              (selected (build_query (default "true" (q_active req))
                           (default "" (q_search req))) (db w)) eq_refl)
    as (sorted' & Hsort' & _ & Hsorted).
  rewrite Hsort in Hsort'. injection Hsort' as <-.
  apply paginate_segment in Hpage as (skip & limit & ->).
  assert (Hurls : StronglySorted
            (fun a b : Url => if desc then createdAt b <= createdAt a
                              else createdAt a <= createdAt b)
            (map snd (take limit (drop skip sorted)))).
  { apply (StronglySorted_fmap snd
             (fun a b : nat * Url => in_order "createdAt" desc a b = true)).
    - intros [ja a] [jb b]. unfold in_order. cbn [path_value String.eqb Ascii.eqb Bool.eqb snd].
      cbn [key_leb]. destruct desc; apply Z.leb_le.
    - now apply strongly_sorted_page. }
  split.
  - intros Hdesc. unfold desc in Hurls. now rewrite Hdesc in Hurls.
  - intros Hasc. apply String.eqb_neq in Hasc. unfold desc in Hurls.
    now rewrite Hasc in Hurls.
Qed.

End ListingOrder.

Lemma listing_order_example :
  exists urls pages stats,
    fst (linksdata Sample.an_env (Sample.a_listing (Some "secret") None None)
           Sample.two_links) = Json 200 (Listing urls pages stats) /\
    urls = [Sample.my_link; Sample.local_link] /\
    StronglySorted (fun a b => createdAt b <= createdAt a) urls.
Proof.
  eexists _, _, _. split; [reflexivity|]. split; [reflexivity|].
  apply (listing_order (H := RegexFacts.reference_engine)
           (H0 := SorterFacts.reference_sorter) Sample.an_env
           (Sample.a_listing (Some "secret") None None) Sample.two_links _ _ _ eq_refl);
    reflexivity.
Defined.
